(** * Script-to-video alignment worker: a shallow embedding

    This development embeds the pure core of
    [backend/app/workers/alignment.py] and states its properties.

    Conventions of the embedding.
    - Python [float] values (times, similarities, confidences) are exact
      rationals [Q]; comparisons are the rational ones, so rounding and
      NaN are outside the model.
    - Python [dict] records with a fixed key set are Rocq records; a key
      the code may leave absent ([temporal_conflict],
      [manual_review_required], [flagged_reason], a segment's
      [confidence]) is an [option] field.
    - A raised exception is the left injection of a sum type.
    - The in-place mutation of the alignment dicts is threaded through
      the loop: the [previous] alignment read at step [i] is the one the
      loop left behind at step [i-1].  The dicts of one list are distinct
      objects, as the matcher builds them.
    - The global model cache is a [gmap] passed in and handed back; the
      calls of [current_task.update_state] are a list of events next to
      the task's result.
    - File reading, model loading, [model.encode] and
      [cosine_similarity] are parameters of the definitions that call
      them, each returning a value or an exception. *)

From Stdlib Require Import QArith Qminmax Lqa Lia.
From Stdlib Require Import Ascii String DecimalString.
From Stdlib Require Import Sorted.
From stdpp Require Import base option list gmap strings.

Local Open Scope Q_scope.

(** ** Exceptions and results *)

Inductive exn : Type :=
  | IndexError
  | ZeroDivisionError
  | ValueError
  | Exception (msg : string).

Definition result (A : Type) : Type := exn + A.

Definition ok {A} (a : A) : result A := inr a.
Definition raise {A} (e : exn) : result A := inl e.

Definition bind {A B} (r : result A) (k : A -> result B) : result B :=
  match r with
  | inl e => inl e
  | inr a => k a
  end.

Notation "'let*' x ':=' r 'in' k" := (bind r (fun x => k))
  (at level 10, x name, r at level 100, k at level 200).

(** Monadic map over a list carrying the position, as [enumerate] does. *)
Fixpoint mapi_result {A B} (f : nat -> A -> result B) (i : nat) (l : list A)
  : result (list B) :=
  match l with
  | [] => ok []
  | a :: l' =>
      let* b := f i a in
      let* bs := mapi_result f (S i) l' in
      ok (b :: bs)
  end.

(** ** Numbers *)

Definition Qltb (x y : Q) : bool := negb (Qle_bool y x).

(** [np.mean] of a non-empty list. *)
Definition Qsum (l : list Q) : Q := foldr Qplus 0 l.
Definition mean (l : list Q) : Q := Qsum l / inject_Z (Z.of_nat (length l)).

(** ** Configuration *)

Record Settings : Type := {
  ALIGNMENT_CONFIDENCE_THRESHOLD : Q;
  ML_MODEL_CACHE_SIZE : nat
}.

(** Defaults of [app/core/config.py]. *)
Definition settings : Settings :=
  {| ALIGNMENT_CONFIDENCE_THRESHOLD := 7 # 10; ML_MODEL_CACHE_SIZE := 3 |}.

(** ** Data model *)

Record ConfidenceFactors : Type := {
  semantic_similarity : Q;
  length_similarity : Q;
  position_similarity : Q;
  transcript_confidence : Q
}.

Record AltMatch : Type := {
  alt_segment_id : string;
  alt_start_time : Q;
  alt_end_time : Q;
  alt_confidence : Q
}.

Record Alignment : Type := {
  scene_number : Z;
  scene_text : string;
  matched_segment_id : string;
  video_start_time : Q;
  video_end_time : Q;
  confidence : Q;
  confidence_factors : ConfidenceFactors;
  alternative_matches : list AltMatch;
  temporal_conflict : option bool;
  manual_review_required : option bool;
  flagged_reason : option string
}.

(** Field updates, one per assignment form of the source. *)
Definition set_confidence (c : Q) (a : Alignment) : Alignment :=
  {| scene_number := scene_number a; scene_text := scene_text a;
     matched_segment_id := matched_segment_id a;
     video_start_time := video_start_time a;
     video_end_time := video_end_time a;
     confidence := c;
     confidence_factors := confidence_factors a;
     alternative_matches := alternative_matches a;
     temporal_conflict := temporal_conflict a;
     manual_review_required := manual_review_required a;
     flagged_reason := flagged_reason a |}.

Definition set_temporal_conflict (b : bool) (a : Alignment) : Alignment :=
  {| scene_number := scene_number a; scene_text := scene_text a;
     matched_segment_id := matched_segment_id a;
     video_start_time := video_start_time a;
     video_end_time := video_end_time a;
     confidence := confidence a;
     confidence_factors := confidence_factors a;
     alternative_matches := alternative_matches a;
     temporal_conflict := Some b;
     manual_review_required := manual_review_required a;
     flagged_reason := flagged_reason a |}.

(** The four assignments of the repair branch, taken from one alternate. *)
Definition use_alternative (alt : AltMatch) (a : Alignment) : Alignment :=
  {| scene_number := scene_number a; scene_text := scene_text a;
     matched_segment_id := alt_segment_id alt;
     video_start_time := alt_start_time alt;
     video_end_time := alt_end_time alt;
     confidence := alt_confidence alt;
     confidence_factors := confidence_factors a;
     alternative_matches := alternative_matches a;
     temporal_conflict := Some false;
     manual_review_required := manual_review_required a;
     flagged_reason := flagged_reason a |}.

Definition set_review (b : bool) (reason : option string) (a : Alignment)
  : Alignment :=
  {| scene_number := scene_number a; scene_text := scene_text a;
     matched_segment_id := matched_segment_id a;
     video_start_time := video_start_time a;
     video_end_time := video_end_time a;
     confidence := confidence a;
     confidence_factors := confidence_factors a;
     alternative_matches := alternative_matches a;
     temporal_conflict := temporal_conflict a;
     manual_review_required := Some b;
     flagged_reason := reason |}.

(** ** Neighbouring elements of a list *)
(** A relation holding between every element and its successor. *)
Fixpoint adjacent {A} (R : A -> A -> Prop) (l : list A) : Prop :=
  match l with
  | a :: l' =>
      match l' with
      | b :: _ => R a b /\ adjacent R l'
      | [] => True
      end
  | [] => True
  end.

(** ** Temporal refiner: [refine_alignment_temporal] *)

Module Refiner.

(** [list.sort(key=lambda x: x['scene_number'])]: Python's sort is stable,
    and a stable sort has one possible result, computed here by
    insertion. *)
Fixpoint insert_by_scene (a : Alignment) (l : list Alignment) : list Alignment :=
  match l with
  | [] => [a]
  | b :: l' =>
      if (scene_number a <=? scene_number b)%Z then a :: b :: l'
      else b :: insert_by_scene a l'
  end.

Definition sort_by_scene (l : list Alignment) : list Alignment :=
  foldr insert_by_scene [] l.

Definition overlap_penalty : Q := 3 # 10.

(** The inner [for alt_match in current['alternative_matches']] loop stops
    at the first alternate starting at or after the previous end. *)
Definition first_fitting (previous_end : Q) (alts : list AltMatch)
  : option AltMatch :=
  find (fun alt => Qle_bool previous_end (alt_start_time alt)) alts.

(** Body of the pairwise loop for one [current] against its [previous]. *)
Definition constrain (previous current : Alignment) : Alignment :=
  if Qltb (video_start_time current) (video_end_time previous) then
    let penalised :=
      set_temporal_conflict true
        (set_confidence (confidence current * (1 - overlap_penalty)) current) in
    match first_fitting (video_end_time previous) (alternative_matches current) with
    | Some alt => use_alternative alt penalised
    | None => penalised
    end
  else current.

(** [for i in range(1, len(refined_alignments))], with [previous] the
    element the loop has already rewritten. *)
Fixpoint temporal_pass (previous : Alignment) (rest : list Alignment)
  : list Alignment :=
  match rest with
  | [] => []
  | current :: rest' =>
      let current' := constrain previous current in
      current' :: temporal_pass current' rest'
  end.

Definition apply_temporal_constraints (l : list Alignment) : list Alignment :=
  match l with
  | [] => []
  | first :: rest => first :: temporal_pass first rest
  end.

(** Second loop: the review flag is always written, the reason only when
    the confidence is below the threshold. *)
Definition flag_low_confidence (s : Settings) (a : Alignment) : Alignment :=
  if Qltb (confidence a) (ALIGNMENT_CONFIDENCE_THRESHOLD s) then
    set_review true (Some "low_confidence_alignment"%string) a
  else
    set_review false (flagged_reason a) a.

(** The source reads the threshold from the global [settings] and never
    reads its [transcript_data] argument; here the settings are the
    first argument. *)
Definition refine_alignment_temporal (s : Settings) (alignments : list Alignment)
  : list Alignment :=
  map (flag_low_confidence s)
      (apply_temporal_constraints (sort_by_scene alignments)).

(** The fields no assignment of the refiner touches. *)
Definition frame (a : Alignment)
  : Z * string * ConfidenceFactors * list AltMatch :=
  (scene_number a, scene_text a, confidence_factors a, alternative_matches a).

(** Ascending scene numbers. *)
Definition scene_sorted (l : list Alignment) : Prop :=
  adjacent Z.le (map scene_number l).

(** The relation the pairwise pass establishes between neighbours. *)
Definition in_order_or_flagged (previous current : Alignment) : Prop :=
  temporal_conflict current = Some true \/
  video_end_time previous <= video_start_time current.

End Refiner.

(** ** Python strings

    Script text is a [string] of code points below 256.  [is_space] is
    [str.isspace] (and the [\s] class of [re]) on that range, [is_digit]
    the [\d] class, [lower] the case folding [re.IGNORECASE] applies. *)

Module PyStr.

Definition is_space (c : ascii) : bool :=
  let n := nat_of_ascii c in
  ((9 <=? n) && (n <=? 13) || (28 <=? n) && (n <=? 32) || (n =? 133) || (n =? 160))%nat.

Definition is_digit (c : ascii) : bool :=
  let n := nat_of_ascii c in ((48 <=? n) && (n <=? 57))%nat.

Definition lower (c : ascii) : ascii :=
  let n := nat_of_ascii c in
  if ((65 <=? n) && (n <=? 90))%nat then ascii_of_nat (n + 32) else c.

Definition newline : ascii := "010"%char.

Fixpoint lstrip (s : string) : string :=
  match s with
  | String c s' => if is_space c then lstrip s' else s
  | EmptyString => EmptyString
  end.

(** Removes the trailing whitespace: a character is kept when something
    other than whitespace follows it or it is not whitespace itself. *)
Fixpoint rstrip (s : string) : string :=
  match s with
  | String c s' =>
      match rstrip s' with
      | EmptyString => if is_space c then EmptyString else String c EmptyString
      | t => String c t
      end
  | EmptyString => EmptyString
  end.

Definition strip (s : string) : string := rstrip (lstrip s).

Definition is_empty (s : string) : bool :=
  match s with EmptyString => true | _ => false end.

(** [s.split(sep)] for a one-character separator: always at least one
    piece. *)
Fixpoint split_on (sep : ascii) (s : string) : list string :=
  match s with
  | EmptyString => [EmptyString]
  | String c s' =>
      if Ascii.eqb c sep then EmptyString :: split_on sep s'
      else
        match split_on sep s' with
        | piece :: pieces => String c piece :: pieces
        | [] => [String c EmptyString]
        end
  end.

(** [s.split()]: the maximal runs of non-whitespace characters. *)
Fixpoint split_go (cur : string) (s : string) : list string :=
  match s with
  | EmptyString => if is_empty cur then [] else [cur]
  | String c s' =>
      if is_space c then
        (if is_empty cur then split_go EmptyString s'
         else cur :: split_go EmptyString s')
      else split_go (cur ++ String c EmptyString) s'
  end.

Definition split (s : string) : list string := split_go EmptyString s.

(** [sep.join(pieces)]. *)
Fixpoint join (sep : string) (pieces : list string) : string :=
  match pieces with
  | [] => EmptyString
  | [p] => p
  | p :: rest => p ++ sep ++ join sep rest
  end.

(** Decimal rendering of a non-negative integer, as [f"{i}"]. *)
Definition of_nat (n : nat) : string :=
  NilEmpty.string_of_uint (Nat.to_uint n).

End PyStr.

(** ** Regular expressions

    The fragment of [re] the scene patterns use, matched by derivatives.
    [re.search] succeeds when some suffix of the subject has a prefix in
    the language; a pattern starting with [^] is tried at position 0
    only (the source passes no [re.MULTILINE]). *)

Module Re.

Inductive regex : Type :=
  | Void
  | Eps
  | Sym (p : ascii -> bool)
  | Cat (r1 r2 : regex)
  | Alt (r1 r2 : regex)
  | Plus (r : regex).

Fixpoint nullable (r : regex) : bool :=
  match r with
  | Void => false
  | Eps => true
  | Sym _ => false
  | Cat r1 r2 => nullable r1 && nullable r2
  | Alt r1 r2 => nullable r1 || nullable r2
  | Plus r1 => nullable r1
  end.

Fixpoint deriv (c : ascii) (r : regex) : regex :=
  match r with
  | Void => Void
  | Eps => Void
  | Sym p => if p c then Eps else Void
  | Cat r1 r2 =>
      if nullable r1 then Alt (Cat (deriv c r1) r2) (deriv c r2)
      else Cat (deriv c r1) r2
  | Alt r1 r2 => Alt (deriv c r1) (deriv c r2)
  | Plus r1 => Alt (deriv c r1) (Cat (deriv c r1) (Plus r1))
  end.

(** Some prefix of [s] is in the language of [r]. *)
Fixpoint match_prefix (r : regex) (s : string) : bool :=
  nullable r ||
  match s with
  | EmptyString => false
  | String c s' => match_prefix (deriv c r) s'
  end.

Fixpoint search_unanchored (r : regex) (s : string) : bool :=
  match_prefix r s ||
  match s with
  | EmptyString => false
  | String _ s' => search_unanchored r s'
  end.

Record pattern : Type := { anchored : bool; body : regex }.

(** [re.search(pattern, s, re.IGNORECASE)] as a truth value. *)
Definition search (p : pattern) (s : string) : bool :=
  if anchored p then match_prefix (body p) s else search_unanchored (body p) s.

(** A literal character under [re.IGNORECASE]. *)
Definition chr (c : ascii) : regex :=
  Sym (fun x => Ascii.eqb (PyStr.lower x) (PyStr.lower c)).

Fixpoint lit (s : string) : regex :=
  match s with
  | EmptyString => Eps
  | String c EmptyString => chr c
  | String c s' => Cat (chr c) (lit s')
  end.

Definition spaces : regex := Plus (Sym PyStr.is_space).
Definition digits : regex := Plus (Sym PyStr.is_digit).

End Re.

(** ** Script segmenter: [parse_script_file] *)

Module Scene.
Record t : Type := {
  scene_number : Z;
  text : string;
  word_count : nat;
  markers : list string
}.
End Scene.

Module Script.
Import Re.

(** [scene_patterns], in source order. *)
Definition scene_patterns : list pattern :=
  [ {| anchored := false; body := Cat (lit "SCENE") (Cat spaces digits) |};
    {| anchored := false; body := Alt (lit "INT.") (lit "EXT.") |};
    {| anchored := false; body := lit "FADE IN:" |};
    {| anchored := false; body := lit "CUT TO:" |};
    {| anchored := true;  body := Cat digits (chr ".") |};
    {| anchored := false; body := Cat (lit "Chapter") (Cat spaces digits) |};
    {| anchored := false;
       body := Cat (lit "ACT")
                 (Cat spaces
                    (Plus (Alt (chr "I") (Alt (chr "V") (chr "X"))))) |} ].

Definition is_scene_marker (line : string) : bool :=
  existsb (fun p => search p line) scene_patterns.

(** The variables the line loop updates: the finished [scenes], the
    three keys of [current_scene], and the running [scene_number]. *)
Record state : Type := {
  scenes : list Scene.t;
  current_number : Z;
  current_text : string;
  current_markers : list string;
  scene_number : Z
}.

Definition initial : state :=
  {| scenes := []; current_number := 1; current_text := "";
     current_markers := []; scene_number := 1 |}.

(** The scene appended when [current_scene] is closed. *)
Definition close (st : state) : Scene.t :=
  let text := PyStr.strip (current_text st) in
  {| Scene.scene_number := current_number st;
     Scene.text := text;
     Scene.word_count := length (PyStr.split text);
     Scene.markers := current_markers st |}.

Definition has_text (st : state) : bool :=
  negb (PyStr.is_empty (PyStr.strip (current_text st))).

(** One iteration of [for i, line in enumerate(lines)]. *)
Definition step (st : state) (raw_line : string) : state :=
  let line := PyStr.strip raw_line in
  if PyStr.is_empty line then st
  else
    let marker := is_scene_marker line in
    if marker && has_text st then
      {| scenes := scenes st ++ [close st];
         current_number := scene_number st;
         current_text := "";
         current_markers := [line];
         scene_number := (scene_number st + 1)%Z |}
    else if marker then
      {| scenes := scenes st;
         current_number := current_number st;
         current_text := current_text st;
         current_markers := current_markers st ++ [line];
         scene_number := scene_number st |}
    else
      {| scenes := scenes st;
         current_number := current_number st;
         current_text := current_text st ++ " " ++ line;
         current_markers := current_markers st;
         scene_number := scene_number st |}.

(** The final scene is added when it has text. *)
Definition flush (st : state) : list Scene.t :=
  if has_text st then scenes st ++ [close st] else scenes st.

(** [parse_script_file] on the decoded [content] of the script file. *)
Definition parse_script_file (content : string) : list Scene.t :=
  let lines := PyStr.split_on PyStr.newline content in
  match flush (fold_left step lines initial) with
  | [] =>
      [ {| Scene.scene_number := 1;
           Scene.text := PyStr.strip content;
           Scene.word_count := length (PyStr.split content);
           Scene.markers := [] |} ]
  | scenes => scenes
  end.

(** The scene number the loop gives to the scene at 0-based position [k]. *)
Definition number_at (k : nat) : Z := Z.max 1 (Z.of_nat k).

Definition numbers (l : list Scene.t) : list Z := map Scene.scene_number l.

Definition numbering (n : nat) : list Z := map number_at (seq 0 n).

(** What the line loop maintains. *)
Definition numbered (st : state) : Prop :=
  numbers (scenes st) = numbering (length (scenes st)) /\
  current_number st = number_at (length (scenes st)) /\
  scene_number st = (Z.of_nat (length (scenes st)) + 1)%Z.

End Script.

(** ** Letter case *)

Module LetterCase.

Fixpoint lower_string (s : string) : string :=
  match s with
  | EmptyString => EmptyString
  | String c s' => String (PyStr.lower c) (lower_string s')
  end.

(** A regular expression all of whose character tests ignore case. *)
Fixpoint caseless (r : Re.regex) : Prop :=
  match r with
  | Re.Void | Re.Eps => True
  | Re.Sym p => forall c, p (PyStr.lower c) = p c
  | Re.Cat r1 r2 | Re.Alt r1 r2 => caseless r1 /\ caseless r2
  | Re.Plus r1 => caseless r1
  end.

End LetterCase.

(** ** Lines of a script *)

Module ScriptLines.
Import Script.

(** The lines of [content] as the loop sees them. *)
Definition lines (content : string) : list string :=
  map PyStr.strip (PyStr.split_on PyStr.newline content).

(** Number of lines the loop takes for scene markers. *)
Definition marker_lines (content : string) : nat :=
  length (List.filter is_scene_marker (lines content)).

Definition has_body (scene : Scene.t) : Prop :=
  PyStr.is_empty (Scene.text scene) = false.

Definition counted (scene : Scene.t) : Prop :=
  Scene.word_count scene = length (PyStr.split (Scene.text scene)).

Definition marked (scene : Scene.t) : Prop :=
  Forall (fun m => is_scene_marker m = true) (Scene.markers scene).

(** What the loop maintains about the marker lists. *)
Definition markers_kept (st : state) : Prop :=
  Forall marked (scenes st) /\
  Forall (fun m => is_scene_marker m = true) (current_markers st) /\
  Forall (fun sc => Scene.markers sc <> []) (tail (scenes st)) /\
  (scenes st <> [] -> current_markers st <> []).

(** What the loop maintains while no marker line has been met. *)
Definition unmarked (st : state) : Prop :=
  scenes st = [] /\ current_markers st = [] /\ current_number st = 1%Z.

End ScriptLines.

(** ** Transcript segmenter *)

(** Total indexing with Python's out-of-range error (no negative
    indices are used with it). *)
Definition index {A} (l : list A) (i : nat) : result A :=
  match l !! i with
  | Some a => ok a
  | None => raise IndexError
  end.

Fixpoint map_result {A B} (f : A -> result B) (l : list A) : result (list B) :=
  match l with
  | [] => ok []
  | a :: l' =>
      let* b := f a in
      let* bs := map_result f l' in
      ok (b :: bs)
  end.

(** [d.get('confidence', 0.0)]. *)
Definition get_confidence (c : option Q) : Q := default 0 c.

Definition Qeq_opt (x y : option Q) : bool :=
  match x, y with
  | Some a, Some b => Qeq_bool a b
  | None, None => true
  | _, _ => false
  end.

Module Word.
Record t : Type := {
  word : string;
  start : Q;
  end_ : Q;
  confidence : option Q
}.

(** [==] on two word dicts: same keys, equal values. *)
Definition eqb (a b : t) : bool :=
  String.eqb (word a) (word b) && Qeq_bool (start a) (start b) &&
  Qeq_bool (end_ a) (end_ b) && Qeq_opt (confidence a) (confidence b).
End Word.

Module BaseSegment.
Record t : Type := {
  start : Q;
  end_ : Q;
  text : string;
  confidence : option Q
}.
End BaseSegment.

Inductive window_type : Type := single | window.

Module Segment.
Record t : Type := {
  segment_id : string;
  start_time : Q;
  end_time : Q;
  text : string;
  confidence : option Q;
  kind : window_type
}.
End Segment.

Record TranscriptData : Type := {
  td_segments : list BaseSegment.t;
  td_words : list Word.t
}.

Module Transcript.

(** The segment appended when the current group of words is closed. *)
Definition close_group (current_start : Q) (word : Word.t)
    (current_segment : list Word.t) : BaseSegment.t :=
  {| BaseSegment.start := current_start;
     BaseSegment.end_ := Word.end_ word;
     BaseSegment.text := PyStr.join " " (map Word.word current_segment);
     BaseSegment.confidence :=
       Some (mean (map (fun w => get_confidence (Word.confidence w)) current_segment)) |}.

(** [word == words[-1]]. *)
Definition is_last_word (words : list Word.t) (word : Word.t) : bool :=
  match last words with
  | Some w => Word.eqb word w
  | None => false
  end.

(** The [for word in words] loop over the remaining words [rest], with
    the loop variables [segments], [current_segment], [current_start]. *)
Fixpoint group_words (words : list Word.t) (segment_duration : Q)
    (rest : list Word.t) (segments : list BaseSegment.t)
    (current_segment : list Word.t) (current_start : Q)
  : list BaseSegment.t :=
  match rest with
  | [] => segments
  | word :: rest' =>
      let current_start :=
        match current_segment with
        | [] => Word.start word
        | _ => current_start
        end in
      let current_segment := current_segment ++ [word] in
      if Qle_bool segment_duration (Word.end_ word - current_start)
         || is_last_word words word
      then
        group_words words segment_duration rest'
          (segments ++ [close_group current_start word current_segment])
          [] current_start
      else
        group_words words segment_duration rest' segments
          current_segment current_start
  end.

Definition create_segments_from_words (words : list Word.t)
    (segment_duration : Q) : list BaseSegment.t :=
  group_words words segment_duration words [] [] 0.

Definition default_segment_duration : Q := 10.

Definition window_size : nat := 3.

Definition single_entry (i : nat) (seg : BaseSegment.t) : Segment.t :=
  {| Segment.segment_id := "single_" ++ PyStr.of_nat i;
     Segment.start_time := BaseSegment.start seg;
     Segment.end_time := BaseSegment.end_ seg;
     Segment.text := PyStr.strip (BaseSegment.text seg);
     Segment.confidence := Some (get_confidence (BaseSegment.confidence seg));
     Segment.kind := single |}.

(** [segments[i:i+window_size]]. *)
Definition slice (segments : list BaseSegment.t) (i : nat) : list BaseSegment.t :=
  take window_size (drop i segments).

Definition window_entry (segments : list BaseSegment.t) (i : nat)
    (first last_seg : BaseSegment.t) : Segment.t :=
  {| Segment.segment_id :=
       "window_" ++ PyStr.of_nat i ++ "_" ++ PyStr.of_nat (i + window_size - 1);
     Segment.start_time := BaseSegment.start first;
     Segment.end_time := BaseSegment.end_ last_seg;
     Segment.text :=
       PyStr.join " " (map (fun seg => PyStr.strip (BaseSegment.text seg))
                           (slice segments i));
     Segment.confidence :=
       Some (mean (map (fun seg => get_confidence (BaseSegment.confidence seg))
                       (slice segments i)));
     Segment.kind := window |}.

(** Body of [for i in range(len(segments))]: the entries appended at
    index [i]. *)
Definition entries_at (segments : list BaseSegment.t) (i : nat)
  : result (list Segment.t) :=
  let* seg := index segments i in
  if (i + window_size <=? length segments)%nat then
    let* last_seg := index segments (i + window_size - 1) in
    ok [single_entry i seg; window_entry segments i seg last_seg]
  else ok [single_entry i seg].

Definition sliding_windows (segments : list BaseSegment.t)
  : result (list Segment.t) :=
  let* groups := map_result (entries_at segments) (seq 0 (length segments)) in
  ok (concat groups).

Definition process_transcript_segments (transcript_data : TranscriptData)
  : result (list Segment.t) :=
  let segments := td_segments transcript_data in
  let words := td_words transcript_data in
  match segments with
  | _ :: _ => sliding_windows segments
  | [] =>
      match words with
      | _ :: _ =>
          sliding_windows (create_segments_from_words words default_segment_duration)
      | [] => raise (Exception "No transcript segments or words available")
      end
  end.

Definition has_kind (k : window_type) (s : Segment.t) : bool :=
  match Segment.kind s, k with
  | single, single | window, window => true
  | _, _ => false
  end.

(** Number of entries of one [window_type]. *)
(** The grouping as the documentation words it, for comparison with
    [group_words]: a group is closed when the duration is reached or no
    word is left. *)
Fixpoint group_words_by_position (segment_duration : Q)
    (rest : list Word.t) (segments : list BaseSegment.t)
    (current_segment : list Word.t) (current_start : Q)
  : list BaseSegment.t :=
  match rest with
  | [] => segments
  | word :: rest' =>
      let current_start :=
        match current_segment with
        | [] => Word.start word
        | _ => current_start
        end in
      let current_segment := current_segment ++ [word] in
      if Qle_bool segment_duration (Word.end_ word - current_start)
         || match rest' with [] => true | _ => false end
      then
        group_words_by_position segment_duration rest'
          (segments ++ [close_group current_start word current_segment])
          [] current_start
      else
        group_words_by_position segment_duration rest' segments
          current_segment current_start
  end.

Definition count_kind (k : window_type) (l : list Segment.t) : nat :=
  length (List.filter (has_kind k) l).

(** A word that is not the last of the list but equal to it. *)
Definition early_last (words : list Word.t) : Prop :=
  exists i w, words !! i = Some w /\ (S i < length words)%nat /\
              is_last_word words w = true.

End Transcript.

(** ** Matcher: [perform_semantic_matching] *)

Module Matcher.

(** [min] and [max] of Python on two numbers: the first argument wins a
    tie. *)
Definition py_min (a b : Q) : Q := if Qltb b a then b else a.
Definition py_max (a b : Q) : Q := if Qltb a b then b else a.

Definition Qabs_diff (a b : Q) : Q := if Qltb a b then b - a else a - b.

(** [scene.get('word_count', len(scene['text'].split()))]: the key is
    always present in a [Scene.t]. *)
Definition compute_length_similarity (scene : Scene.t) (segment : Segment.t)
  : result Q :=
  let scene_words := inject_Z (Z.of_nat (Scene.word_count scene)) in
  let segment_duration := Segment.end_time segment - Segment.start_time segment in
  let estimated_words := (segment_duration / 60) * 150 in
  if Qeq_bool estimated_words 0 then ok 0
  else
    let denominator := py_max scene_words estimated_words in
    if Qeq_bool denominator 0 then raise ZeroDivisionError
    else ok (py_min scene_words estimated_words / denominator).

Definition compute_position_similarity (scene_idx segment_idx : nat)
    (total_scenes total_segments : nat) : Q :=
  let scene_position :=
    inject_Z (Z.of_nat scene_idx) / inject_Z (Z.max 1 (Z.of_nat total_scenes - 1)) in
  let segment_position :=
    inject_Z (Z.of_nat segment_idx) / inject_Z (Z.max 1 (Z.of_nat total_segments - 1)) in
  let position_diff := Qabs_diff scene_position segment_position in
  1 - position_diff.

(** [np.argsort]: the indices of a row in ascending order of value.
    Equal values keep their index order here; numpy leaves the order of
    ties to the sorting routine. *)
Fixpoint insert_index (row : list Q) (i : nat) (sorted : list nat) : list nat :=
  match sorted with
  | [] => [i]
  | j :: sorted' =>
      if Qle_bool (default 0 (row !! i)) (default 0 (row !! j))
      then i :: j :: sorted'
      else j :: insert_index row i sorted'
  end.

Definition argsort (row : list Q) : list nat :=
  foldr (insert_index row) [] (seq 0 (length row)).

(** [np.argsort(scene_similarities)[::-1][:5]]. *)
Definition top_indices (scene_similarities : list Q) : list nat :=
  take 5 (rev (argsort scene_similarities)).

(** [scene['text'][:200] + '...' if len(scene['text']) > 200 else
    scene['text']]. *)
Definition preview (text : string) : string :=
  if (200 <? String.length text)%nat then substring 0 200 text ++ "..." else text.

Definition weighted (f : ConfidenceFactors) : Q :=
  semantic_similarity f * (5 # 10) +
  length_similarity f * (2 # 10) +
  position_similarity f * (2 # 10) +
  transcript_confidence f * (1 # 10).

Definition alternative (segments : list Segment.t) (scene_similarities : list Q)
    (idx : nat) : result AltMatch :=
  let* segment := index segments idx in
  let* similarity := index scene_similarities idx in
  ok {| alt_segment_id := Segment.segment_id segment;
        alt_start_time := Segment.start_time segment;
        alt_end_time := Segment.end_time segment;
        alt_confidence := similarity |}.

Section WithSimilarity.

(** [sklearn.metrics.pairwise.cosine_similarity], an external routine:
    it returns the matrix of pairwise similarities or raises. *)
Variable cosine_similarity : list (list Q) -> list (list Q) -> result (list (list Q)).

(** Body of [for i, scene in enumerate(scenes)]. *)
Definition match_scene (scenes : list Scene.t) (segments : list Segment.t)
    (similarity_matrix : list (list Q)) (i : nat) (scene : Scene.t)
  : result Alignment :=
  let* scene_similarities := index similarity_matrix i in
  let top := top_indices scene_similarities in
  let* best_match_idx := index top 0 in
  let* best_segment := index segments best_match_idx in
  let* confidence := index scene_similarities best_match_idx in
  let* length_sim := compute_length_similarity scene best_segment in
  let factors :=
    {| semantic_similarity := confidence;
       length_similarity := length_sim;
       position_similarity :=
         compute_position_similarity i best_match_idx (length scenes) (length segments);
       transcript_confidence := get_confidence (Segment.confidence best_segment) |} in
  let final_confidence := weighted factors in
  let* alternatives :=
    map_result (alternative segments scene_similarities) (take 2 (drop 1 top)) in
  ok {| scene_number := Scene.scene_number scene;
        scene_text := preview (Scene.text scene);
        matched_segment_id := Segment.segment_id best_segment;
        video_start_time := Segment.start_time best_segment;
        video_end_time := Segment.end_time best_segment;
        confidence := final_confidence;
        confidence_factors := factors;
        alternative_matches := alternatives;
        temporal_conflict := None;
        manual_review_required := None;
        flagged_reason := None |}.

Definition perform_semantic_matching (scenes : list Scene.t)
    (segments : list Segment.t)
    (scene_embeddings segment_embeddings : list (list Q))
  : result (list Alignment) :=
  let* similarity_matrix := cosine_similarity scene_embeddings segment_embeddings in
  mapi_result (match_scene scenes segments similarity_matrix) 0 scenes.

End WithSimilarity.

(** Pairwise dot products: the cosine similarity of embeddings of unit
    length, which is what the examples below feed it.  Like the library
    routine, it rejects an empty collection of embeddings with a
    [ValueError]. *)
Definition dot (u v : list Q) : Q :=
  Qsum (map (fun p => fst p * snd p) (combine u v)).

Definition dot_similarity (X Y : list (list Q)) : result (list (list Q)) :=
  match X, Y with
  | [], _ | _, [] => raise ValueError
  | _, _ => ok (map (fun x => map (dot x) Y) X)
  end.

(** A similarity routine that validates its input: it raises when
    either collection of embeddings is empty. *)
Definition rejects_empty
    (cosine_similarity : list (list Q) -> list (list Q) -> result (list (list Q)))
  : Prop :=
  forall X Y, X = [] \/ Y = [] -> exists e, cosine_similarity X Y = raise e.

Definition in_unit (q : Q) : Prop := 0 <= q /\ q <= 1.

(** Inputs on which every ingredient of the composite score is a
    proportion. *)
Definition unit_matrix (m : list (list Q)) : Prop :=
  Forall (Forall in_unit) m.

(** An alignment whose confidence and alternates' confidences are
    proportions. *)
Definition bounded (a : Alignment) : Prop :=
  in_unit (confidence a) /\
  Forall (fun alt => in_unit (alt_confidence alt)) (alternative_matches a).

Definition plausible_segment (s : Segment.t) : Prop :=
  Segment.start_time s <= Segment.end_time s /\
  in_unit (get_confidence (Segment.confidence s)).

End Matcher.

(** ** Shapes of the matcher's input and output *)

Module MatcherShape.
Import Matcher.

(** The value [np.argsort] compares for index [i]. *)
Definition value (row : list Q) (i : nat) : Q := default 0 (row !! i).

Definition ascending (row : list Q) (i j : nat) : Prop := value row i <= value row j.

(** A similarity matrix with one row per scene and one column per
    segment. *)
Definition well_shaped (m : list (list Q)) (scenes : list Scene.t)
    (segments : list Segment.t) : Prop :=
  length m = length scenes /\
  Forall (fun row => length row = length segments) m.

(** An alignment as the matcher leaves it. *)
Definition fresh (a : Alignment) : Prop :=
  temporal_conflict a = None /\ manual_review_required a = None /\
  flagged_reason a = None /\
  (length (alternative_matches a) <= 2)%nat /\
  confidence a = weighted (confidence_factors a).

(** The span of [a] is that of a candidate of [segments], and so is the
    span of each of its alternates. *)
Definition from_candidates (segments : list Segment.t) (a : Alignment) : Prop :=
  (exists seg, In seg segments /\
     matched_segment_id a = Segment.segment_id seg /\
     video_start_time a = Segment.start_time seg /\
     video_end_time a = Segment.end_time seg /\
     transcript_confidence (confidence_factors a)
     = get_confidence (Segment.confidence seg)) /\
  Forall (fun alt => exists seg, In seg segments /\
            alt_segment_id alt = Segment.segment_id seg /\
            alt_start_time alt = Segment.start_time seg /\
            alt_end_time alt = Segment.end_time seg)
         (alternative_matches a).

(** The candidate at position [idx] and its entry in the similarity
    row supply the given id, times and similarity. *)
Definition at_index (segments : list Segment.t) (row : list Q) (idx : nat)
    (id : string) (start_time end_time similarity : Q) : Prop :=
  exists seg, segments !! idx = Some seg /\ row !! idx = Some similarity /\
    id = Segment.segment_id seg /\
    start_time = Segment.start_time seg /\ end_time = Segment.end_time seg.

(** The primary match is the candidate at a position of greatest
    similarity in the row; each alternate is the candidate at another
    position, with its similarity as confidence, not above the
    primary's. *)
Definition best_match (segments : list Segment.t) (row : list Q) (a : Alignment)
  : Prop :=
  exists best,
    at_index segments row best (matched_segment_id a)
      (video_start_time a) (video_end_time a)
      (semantic_similarity (confidence_factors a)) /\
    Forall (fun q => q <= semantic_similarity (confidence_factors a)) row /\
    Forall (fun alt => exists idx, idx <> best /\
              at_index segments row idx (alt_segment_id alt)
                (alt_start_time alt) (alt_end_time alt) (alt_confidence alt) /\
              alt_confidence alt <= semantic_similarity (confidence_factors a))
           (alternative_matches a).

End MatcherShape.

(** ** Quality validator: [validate_alignment_quality] *)

Record QualityFactors : Type := {
  average_confidence : Q;
  high_confidence_ratio : Q;
  temporal_consistency : Q
}.

Record SceneStatistics : Type := {
  total_scenes : nat;
  high_confidence : nat;
  medium_confidence : nat;
  low_confidence : nat;
  temporal_conflicts : nat
}.

Record QualityReport : Type := {
  status : string;
  quality_score : Q;
  quality_factors : QualityFactors;
  scene_statistics : SceneStatistics;
  needs_manual_review : bool;
  recommendations : list string
}.

Module Validator.

Definition count (p : Alignment -> bool) (l : list Alignment) : nat :=
  length (List.filter p l).

Definition Qnat (n : nat) : Q := inject_Z (Z.of_nat n).

(** [a.get('temporal_conflict', False)]. *)
Definition has_conflict (a : Alignment) : bool := default false (temporal_conflict a).

Definition generate_alignment_recommendations (alignments : list Alignment)
    (f : QualityFactors) : list string :=
  (if Qltb (average_confidence f) (6 # 10)
   then ["Consider reviewing script content for clarity and detail"%string] else []) ++
  (if Qltb (high_confidence_ratio f) (5 # 10)
   then ["Many scenes have low confidence matches - manual review recommended"%string]
   else []) ++
  (if Qltb (temporal_consistency f) (8 # 10)
   then ["Temporal order issues detected - check scene sequence"%string] else []) ++
  (let low_conf_scenes := List.filter (fun a => Qltb (confidence a) (5 # 10)) alignments in
   match low_conf_scenes with
   | [] => []
   | _ => [(PyStr.of_nat (length low_conf_scenes) ++ " scenes need manual review")%string]
   end).

Definition validate_alignment_quality (job_id : string) (alignments : list Alignment)
  : QualityReport :=
  let total := length alignments in
  let high := count (fun a => Qltb (8 # 10) (confidence a)) alignments in
  let medium :=
    count (fun a => Qle_bool (5 # 10) (confidence a) && Qle_bool (confidence a) (8 # 10))
          alignments in
  let low := count (fun a => Qltb (confidence a) (5 # 10)) alignments in
  let confidence_scores := map confidence alignments in
  let average :=
    match confidence_scores with
    | [] => 0
    | _ => mean confidence_scores
    end in
  let conflicts := count has_conflict alignments in
  let factors :=
    {| average_confidence := average;
       high_confidence_ratio := if (0 <? total)%nat then Qnat high / Qnat total else 0;
       temporal_consistency :=
         if (0 <? total)%nat then 1 - Qnat conflicts / Qnat total else 1 |} in
  let overall_score :=
    average_confidence factors * (5 # 10) +
    high_confidence_ratio factors * (3 # 10) +
    temporal_consistency factors * (2 # 10) in
  let review :=
    Qltb overall_score (6 # 10)
    || Qltb (Qnat total * (3 # 10)) (Qnat low)
    || Qltb (Qnat total * (1 # 10)) (Qnat conflicts) in
  {| status := "success";
     quality_score := overall_score;
     quality_factors := factors;
     scene_statistics :=
       {| total_scenes := total; high_confidence := high;
          medium_confidence := medium; low_confidence := low;
          temporal_conflicts := conflicts |};
     needs_manual_review := review;
     recommendations := generate_alignment_recommendations alignments factors |}.

End Validator.

(** ** Outcomes of the refiner, per alignment *)

Module RefinerOutcome.
Import Refiner.

(** The three keys a repair rewrites together. *)
Definition span (a : Alignment) : string * Q * Q :=
  (matched_segment_id a, video_start_time a, video_end_time a).

Definition alt_span (alt : AltMatch) : string * Q * Q :=
  (alt_segment_id alt, alt_start_time alt, alt_end_time alt).

(** What the pairwise loop can have done to [before] to give [after]. *)
Definition untouched (before after : Alignment) : Prop :=
  span after = span before /\
  confidence after = confidence before /\
  temporal_conflict after = temporal_conflict before.

Definition penalised (before after : Alignment) : Prop :=
  span after = span before /\
  confidence after = confidence before * (1 - overlap_penalty) /\
  temporal_conflict after = Some true.

Definition repaired (before after : Alignment) : Prop :=
  exists alt, In alt (alternative_matches before) /\
    span after = alt_span alt /\
    confidence after = alt_confidence alt /\
    temporal_conflict after = Some false.

Definition outcome (before after : Alignment) : Prop :=
  untouched before after \/ penalised before after \/ repaired before after.

(** Scenes in scene order whose spans follow one another. *)
Definition in_sequence (l : list Alignment) : Prop :=
  scene_sorted l /\
  adjacent (fun a b => video_end_time a <= video_start_time b) l.

End RefinerOutcome.

(** ** Well-formed transcripts *)

Module TranscriptShape.

(** A base segment with a non-negative duration and a confidence that
    is a proportion. *)
Definition plausible_base (b : BaseSegment.t) : Prop :=
  BaseSegment.start b <= BaseSegment.end_ b /\
  Matcher.in_unit (get_confidence (BaseSegment.confidence b)).

(** Base segments in time order: each one starts at or after the end of
    the one before it. *)
Definition chronological (l : list BaseSegment.t) : Prop :=
  Forall plausible_base l /\
  adjacent (fun a b => BaseSegment.end_ a <= BaseSegment.start b) l.

(** The words of the segments, in order. *)
Definition spoken_text (l : list BaseSegment.t) : string :=
  PyStr.join " " (map BaseSegment.text l).

(** A segment the grouping closed for its duration, or one that ends
    where the last word ends. *)
Definition long_or_final (words : list Word.t) (d : Q) (b : BaseSegment.t) : Prop :=
  d <= BaseSegment.end_ b - BaseSegment.start b \/
  exists w, last words = Some w /\ BaseSegment.end_ b == Word.end_ w.

End TranscriptShape.

(** ** Model cache: [get_sentence_transformer] *)

Module ModelCache.

Section WithLoader.

(** A loaded model, and [SentenceTransformer(model_name)], which loads
    one or raises. *)
Variable Model : Type.
Variable SentenceTransformer : string -> result Model.

(** The global [_alignment_models] is the state threaded through the
    call: the result is the cache afterwards and the value returned or
    the exception raised. *)
Definition get_sentence_transformer (s : Settings)
    (_alignment_models : gmap string Model) (model_name : string)
  : gmap string Model * result Model :=
  match _alignment_models !! model_name with
  | Some model => (_alignment_models, ok model)
  | None =>
      let cleared :=
        if (ML_MODEL_CACHE_SIZE s <=? size _alignment_models)%nat
        then ∅ else _alignment_models in
      match SentenceTransformer model_name with
      | inl e => (cleared, raise e)
      | inr model => (<[model_name := model]> cleared, ok model)
      end
  end.

End WithLoader.

(** The cache never holds more than the configured number of models,
    and never fewer than the one just requested. *)
Definition capacity (s : Settings) : nat := Nat.max 1 (ML_MODEL_CACHE_SIZE s).

End ModelCache.

(** ** Texts handed to the embedding model *)

Module Embedding.

(** [re.sub(r'\s+', ' ', text)]: every maximal run of whitespace becomes
    one space. *)
Fixpoint collapse (in_run : bool) (s : string) : string :=
  match s with
  | EmptyString => EmptyString
  | String c s' =>
      if PyStr.is_space c then
        if in_run then collapse true s' else String " " (collapse true s')
      else String c (collapse false s')
  end.

Definition normalize_whitespace (text : string) : string := collapse false text.

(** The text of one scene in [compute_scene_embeddings]. *)
Definition scene_text_for_embedding (scene : Scene.t) : string :=
  let text := PyStr.strip (normalize_whitespace (Scene.text scene)) in
  match Scene.markers scene with
  | [] => text
  | markers => PyStr.join " " markers ++ " " ++ text
  end.

Section WithModel.

(** [get_sentence_transformer().encode(texts, show_progress_bar=False)]:
    loading and running the model, which may raise. *)
Variable encode : list string -> result (list (list Q)).

Definition compute_scene_embeddings (scenes : list Scene.t)
  : result (list (list Q)) :=
  encode (map scene_text_for_embedding scenes).

Definition compute_segment_embeddings (segments : list Segment.t)
  : result (list (list Q)) :=
  encode (map Segment.text segments).

End WithModel.

(** No two whitespace characters in a row, and no whitespace other
    than the space. *)
Fixpoint single_spaced (s : string) : Prop :=
  match s with
  | EmptyString => True
  | String c s' =>
      (PyStr.is_space c = true -> c = " "%char) /\
      match s' with
      | String d _ => PyStr.is_space c = true -> PyStr.is_space d = false
      | EmptyString => True
      end /\
      single_spaced s'
  end.

End Embedding.

(** ** The task: [align_script_to_video] *)

Module Pipeline.

(** A call of [current_task.update_state]. *)
Inductive event : Type :=
  | Progress (percent : nat) (stage : string) (scenes_found : option nat)
  | Failure (error : exn) (stage : string).

Record ProcessingInfo : Type := {
  script_scenes_count : nat;
  transcript_segments_count : nat;
  matched_scenes : nat;
  info_average_confidence : Q
}.

Record AlignmentResult : Type := {
  result_status : string;
  alignments : list Alignment;
  processing_info : ProcessingInfo
}.

(** A computation that reports events and returns or raises. *)
Definition traced (A : Type) : Type := list event * result A.

Definition emit (e : event) : traced unit := ([e], ok tt).

Definition lift {A} (r : result A) : traced A := ([], r).

Definition then_ {A B} (t : traced A) (k : A -> traced B) : traced B :=
  match t with
  | (log, inl e) => (log, inl e)
  | (log, inr a) => let (log', r) := k a in (log ++ log', r)
  end.

Notation "'do' x '<-' t ';' k" := (then_ t (fun x => k))
  (at level 10, x name, t at level 100, k at level 200).

(** [except Exception as e: update_state(FAILURE); raise]. *)
Definition reporting_failure {A} (t : traced A) : traced A :=
  match t with
  | (log, inl e) => (log ++ [Failure e "alignment"], inl e)
  | (log, inr a) => (log, inr a)
  end.

Section WithCollaborators.

(** Reading and decoding the script file, the embedding model and the
    similarity routine are the task's collaborators. *)
Variable read_script : string -> result string.
Variable encode : list string -> result (list (list Q)).
Variable cosine_similarity : list (list Q) -> list (list Q) -> result (list (list Q)).

Definition summary (s : Settings) (script_scenes : list Scene.t)
    (transcript_segments : list Segment.t) (refined_alignments : list Alignment)
  : AlignmentResult :=
  {| result_status := "success";
     alignments := refined_alignments;
     processing_info :=
       {| script_scenes_count := length script_scenes;
          transcript_segments_count := length transcript_segments;
          matched_scenes :=
            length (List.filter
                      (fun a => Qltb (ALIGNMENT_CONFIDENCE_THRESHOLD s) (confidence a))
                      refined_alignments);
          info_average_confidence :=
            match refined_alignments with
            | [] => 0
            | _ => mean (map confidence refined_alignments)
            end |} |}.

Definition align_script_to_video (s : Settings) (job_id script_path : string)
    (transcript_data : TranscriptData) : traced AlignmentResult :=
  reporting_failure (
    do _ <- emit (Progress 10 "parsing_script" None);
    do script_scenes <-
      lift (let* content := read_script script_path in
            ok (Script.parse_script_file content));
    do _ <- emit (Progress 30 "processing_transcript" (Some (length script_scenes)));
    do transcript_segments <-
      lift (Transcript.process_transcript_segments transcript_data);
    do _ <- emit (Progress 50 "computing_embeddings" None);
    do scene_embeddings <-
      lift (Embedding.compute_scene_embeddings encode script_scenes);
    do segment_embeddings <-
      lift (Embedding.compute_segment_embeddings encode transcript_segments);
    do _ <- emit (Progress 70 "matching_scenes" None);
    do matched <-
      lift (Matcher.perform_semantic_matching cosine_similarity
              script_scenes transcript_segments scene_embeddings segment_embeddings);
    do _ <- emit (Progress 90 "refining_alignment" None);
    do refined_alignments <-
      lift (ok (Refiner.refine_alignment_temporal s matched));
    do _ <- emit (Progress 100 "completed" None);
    lift (ok (summary s script_scenes transcript_segments refined_alignments))).

End WithCollaborators.

(** The percentages reported, in order. *)
Definition percents (log : list event) : list nat :=
  omap (fun e => match e with
                 | Progress p _ _ => Some p
                 | Failure _ _ => None
                 end) log.

Definition milestones : list nat := [10; 30; 50; 70; 90; 100]%nat.

Definition is_failure (e : event) : Prop :=
  match e with Failure _ _ => True | Progress _ _ _ => False end.

End Pipeline.

(** ** Example data *)

Module Examples.

Definition no_factors : ConfidenceFactors :=
  {| semantic_similarity := 0; length_similarity := 0;
     position_similarity := 0; transcript_confidence := 0 |}.

(** An alignment as the matcher leaves it: the three refiner keys absent. *)
Definition matched (n : Z) (start_time end_time conf : Q) (alts : list AltMatch)
  : Alignment :=
  {| scene_number := n; scene_text := "";
     matched_segment_id := "single_0";
     video_start_time := start_time; video_end_time := end_time;
     confidence := conf; confidence_factors := no_factors;
     alternative_matches := alts;
     temporal_conflict := None; manual_review_required := None;
     flagged_reason := None |}.

(** Two scenes matched to the same span, no alternate for the second. *)
Definition same_span : list Alignment :=
  [matched 1 0 10 (9 # 10) []; matched 2 0 10 (9 # 10) []].

(** Two scenes in order, the second exactly at the threshold. *)
Definition in_order : list Alignment :=
  [matched 1 0 10 (9 # 10) []; matched 2 10 20 (7 # 10) []].

(** Out of scene order, the later scene repaired by its alternate. *)
Definition repaired : list Alignment :=
  [matched 2 0 5 (9 # 10)
     [{| alt_segment_id := "single_3"; alt_start_time := 12;
         alt_end_time := 15; alt_confidence := 6 # 10 |}];
   matched 1 0 10 (8 # 10) []].

Definition nl : string := String PyStr.newline EmptyString.

Definition kitchen_script : string :=
  "INT. KITCHEN" ++ nl ++ "She cooks dinner." ++ nl ++
  "EXT. STREET" ++ nl ++ "He walks away.".

Definition spoken (text : string) (start_time end_time : Q) : Word.t :=
  {| Word.word := text; Word.start := start_time; Word.end_ := end_time;
     Word.confidence := Some (9 # 10) |}.

(** Three words, the last two with the same text and the same
    zero-length time stamps. *)
Definition oh_no_no : list Word.t :=
  [spoken "oh" 0 (4 # 10); spoken "no" (4 # 10) (4 # 10); spoken "no" (4 # 10) (4 # 10)].

Definition spoken_segment (text : string) (start_time end_time : Q) : BaseSegment.t :=
  {| BaseSegment.start := start_time; BaseSegment.end_ := end_time;
     BaseSegment.text := text; BaseSegment.confidence := Some (9 # 10) |}.

Definition four_segments : TranscriptData :=
  {| td_segments :=
       [spoken_segment "She cooks dinner." 0 2; spoken_segment "It smells good." 2 4;
        spoken_segment "He walks away." 4 6; spoken_segment "The end." 6 7];
     td_words := [] |}.

Definition kitchen_scenes : list Scene.t :=
  [ {| Scene.scene_number := 1; Scene.text := "She cooks dinner.";
       Scene.word_count := 3; Scene.markers := ["INT. KITCHEN"%string] |};
    {| Scene.scene_number := 1; Scene.text := "He walks away.";
       Scene.word_count := 3; Scene.markers := ["EXT. STREET"%string] |} ].

Definition candidate (id : string) (start_time end_time : Q) : Segment.t :=
  {| Segment.segment_id := id; Segment.start_time := start_time;
     Segment.end_time := end_time; Segment.text := "";
     Segment.confidence := Some (9 # 10); Segment.kind := single |}.

Definition three_candidates : list Segment.t :=
  [candidate "single_0" 0 2; candidate "single_1" 2 4; candidate "single_2" 4 6].

(** Embeddings of unit length. *)
Definition scene_vectors : list (list Q) := [[1; 0]; [0; 1]].
Definition segment_vectors : list (list Q) := [[1; 0]; [0; 1]; [3 # 5; 4 # 5]].

(** One scene and one segment whose embedding is the opposite of the
    scene's. *)
Definition lone_scene : list Scene.t :=
  [ {| Scene.scene_number := 1; Scene.text := "She cooks dinner.";
       Scene.word_count := 3; Scene.markers := [] |} ].

Definition opposite_candidate : list Segment.t := [candidate "single_0" 0 2].

(** Two confident scenes one after the other. *)
Definition confident_pair : list Alignment :=
  [matched 1 0 10 (9 # 10) []; matched 2 10 20 (95 # 100) []].

Definition prose : string := "She cooks dinner." ++ nl ++ "He walks away.".

(** A loader that always succeeds, and the default model name. *)
Definition loaded (model_name : string) : result string := ok model_name.
Definition default_model : string := "all-MiniLM-L6-v2".

(** Collaborators for a run of the task: the script file holds the
    kitchen script, and every text gets the same embedding. *)
Definition read_kitchen (script_path : string) : result string := ok kitchen_script.

Definition constant_encode (texts : list string) : result (list (list Q)) :=
  ok (map (fun _ => [1; 0]) texts).

Definition oh_no : list Word.t := [spoken "oh" 0 (4 # 10); spoken "no" (4 # 10) 1].

Definition cooking_scene : Scene.t :=
  {| Scene.scene_number := 1; Scene.text := "She cooks dinner.";
     Scene.word_count := 3; Scene.markers := [] |}.

(** A cache holding one other model, and a cache at the default
    capacity of three. *)
Definition one_cached : gmap string string :=
  {["paraphrase-MiniLM-L3-v2"%string := "paraphrase-MiniLM-L3-v2"%string]}.

Definition full_cache : gmap string string :=
  <["all-mpnet-base-v2"%string := "all-mpnet-base-v2"%string]>
    (<["multi-qa-MiniLM-L6-cos-v1"%string := "multi-qa-MiniLM-L6-cos-v1"%string]>
       one_cached).

End Examples.

(** * Properties *)

(** ** Numbers *)

Lemma Qltb_lt x y : Qltb x y = true <-> x < y.
Proof.
  unfold Qltb. rewrite negb_true_iff, <- not_true_iff_false, Qle_bool_iff.
  split; [apply Qnot_le_lt | apply Qlt_not_le].
Qed.

Lemma Qltb_ge x y : Qltb x y = false <-> y <= x.
Proof.
  unfold Qltb. rewrite negb_false_iff. apply Qle_bool_iff.
Qed.

(** ** Generic list facts *)

Lemma adjacent_cons {A} (R : A -> A -> Prop) a b l :
  adjacent R (a :: b :: l) <-> R a b /\ adjacent R (b :: l).
Proof. reflexivity. Qed.

Lemma adjacent_lookup {A} (R : A -> A -> Prop) (l : list A) :
  adjacent R l ->
  forall i a b, l !! i = Some a -> l !! S i = Some b -> R a b.
Proof.
  induction l as [|x l IH]; intros Hadj i a b Ha Hb; [discriminate|].
  destruct l as [|y l]; [discriminate|].
  apply adjacent_cons in Hadj as [Hxy Hadj].
  destruct i as [|i]; simpl in Ha, Hb.
  - congruence.
  - eapply IH; eauto.
Qed.

Lemma adjacent_map {A B} (f : A -> B) (R : B -> B -> Prop) (l : list A) :
  adjacent R (map f l) <-> adjacent (fun x y => R (f x) (f y)) l.
Proof.
  induction l as [|x l IH]; [reflexivity|].
  destruct l as [|y l]; [reflexivity|].
  change (map f (x :: y :: l)) with (f x :: map f (y :: l)).
  change (map f (y :: l)) with (f y :: map f l) in *.
  rewrite !adjacent_cons, IH. reflexivity.
Qed.

Lemma adjacent_impl {A} (R S : A -> A -> Prop) (l : list A) :
  (forall a b, R a b -> S a b) -> adjacent R l -> adjacent S l.
Proof.
  intros HRS. induction l as [|x l IH]; [trivial|].
  destruct l as [|y l]; [trivial|].
  rewrite !adjacent_cons. intros [? ?]. split; auto.
Qed.

Lemma index_lt {A} (l : list A) i :
  (i < length l)%nat -> exists a, index l i = ok a.
Proof.
  intros H. unfold index.
  destruct (lookup_lt_is_Some_2 l i H) as [a ->]. eauto.
Qed.

Module RefinerFacts.
Import Refiner.

(** *** Sorting *)

Lemma insert_by_scene_perm a l : insert_by_scene a l ≡ₚ a :: l.
Proof.
  induction l as [|b l IH]; simpl; [reflexivity|].
  destruct (scene_number a <=? scene_number b)%Z; [reflexivity|].
  rewrite IH. apply Permutation_swap.
Qed.

Lemma sort_by_scene_perm l : sort_by_scene l ≡ₚ l.
Proof.
  induction l as [|a l IH]; simpl; [reflexivity|].
  rewrite insert_by_scene_perm, IH. reflexivity.
Qed.

Lemma insert_by_scene_sorted a l :
  scene_sorted l -> scene_sorted (insert_by_scene a l).
Proof.
  unfold scene_sorted.
  induction l as [|b l IH]; intros Hl; simpl; [trivial|].
  destruct (scene_number a <=? scene_number b)%Z eqn:E.
  - simpl. split; [lia | exact Hl].
  - assert (Hba : (scene_number b <= scene_number a)%Z) by lia.
    destruct l as [|c l]; simpl in *.
    + split; [exact Hba | trivial].
    + destruct Hl as [Hbc Hl]. specialize (IH Hl).
      destruct (scene_number a <=? scene_number c)%Z eqn:E'; simpl in *.
      * split; [exact Hba | exact IH].
      * split; [exact Hbc | exact IH].
Qed.

Lemma sort_by_scene_sorted l : scene_sorted (sort_by_scene l).
Proof.
  induction l as [|a l IH]; simpl; [exact I|].
  apply insert_by_scene_sorted, IH.
Qed.

Lemma sort_by_scene_fixed l : scene_sorted l -> sort_by_scene l = l.
Proof.
  unfold scene_sorted.
  induction l as [|a l IH]; intros Hl; simpl; [reflexivity|].
  destruct l as [|b l]; [reflexivity|].
  destruct Hl as [Hab Hl].
  change (foldr insert_by_scene [] (b :: l)) with (sort_by_scene (b :: l)).
  rewrite (IH Hl). simpl.
  destruct (scene_number a <=? scene_number b)%Z eqn:E; [reflexivity | lia].
Qed.

(** *** The pairwise pass *)

Lemma constrain_frame previous current :
  frame (constrain previous current) = frame current.
Proof.
  unfold constrain.
  destruct (Qltb _ _); [|reflexivity].
  destruct (first_fitting _ _); reflexivity.
Qed.

Lemma temporal_pass_frame previous rest :
  map frame (temporal_pass previous rest) = map frame rest.
Proof.
  revert previous. induction rest as [|c rest IH]; intros p; simpl; [reflexivity|].
  rewrite constrain_frame, IH. reflexivity.
Qed.

Lemma apply_temporal_constraints_frame l :
  map frame (apply_temporal_constraints l) = map frame l.
Proof.
  destruct l as [|a l]; simpl; [reflexivity|].
  rewrite temporal_pass_frame. reflexivity.
Qed.

Lemma flag_low_confidence_frame s a :
  frame (flag_low_confidence s a) = frame a.
Proof. unfold flag_low_confidence. destruct (Qltb _ _); reflexivity. Qed.

Lemma refine_frame s l :
  map frame (refine_alignment_temporal s l) = map frame (sort_by_scene l).
Proof.
  unfold refine_alignment_temporal.
  rewrite map_map.
  rewrite (map_ext _ frame) by (intros; apply flag_low_confidence_frame).
  apply apply_temporal_constraints_frame.
Qed.

Lemma frame_scene_number l l' :
  map frame l = map frame l' -> map scene_number l = map scene_number l'.
Proof.
  intros H.
  assert (E : forall k, map scene_number k = map (fun t => fst (fst (fst t))) (map frame k)).
  { intros k. rewrite map_map. reflexivity. }
  rewrite !E, H. reflexivity.
Qed.

Lemma constrain_in_order previous current :
  in_order_or_flagged previous (constrain previous current).
Proof.
  unfold constrain, in_order_or_flagged.
  destruct (Qltb _ _) eqn:E.
  - destruct (first_fitting _ _) as [alt|] eqn:F.
    + right. simpl. unfold first_fitting in F.
      apply find_some in F as [_ F]. apply Qle_bool_iff in F. exact F.
    + left. reflexivity.
  - right. apply Qltb_ge in E. exact E.
Qed.

Lemma temporal_pass_in_order previous rest :
  adjacent in_order_or_flagged (previous :: temporal_pass previous rest).
Proof.
  revert previous. induction rest as [|c rest IH]; intros p; [exact I|].
  change (temporal_pass p (c :: rest))
    with (constrain p c :: temporal_pass (constrain p c) rest).
  apply adjacent_cons. split; [apply constrain_in_order | apply IH].
Qed.

Lemma apply_temporal_constraints_in_order l :
  adjacent in_order_or_flagged (apply_temporal_constraints l).
Proof.
  destruct l as [|a l]; [exact I | apply temporal_pass_in_order].
Qed.

Lemma flag_low_confidence_times s a :
  video_start_time (flag_low_confidence s a) = video_start_time a /\
  video_end_time (flag_low_confidence s a) = video_end_time a /\
  temporal_conflict (flag_low_confidence s a) = temporal_conflict a /\
  confidence (flag_low_confidence s a) = confidence a.
Proof. unfold flag_low_confidence. destruct (Qltb _ _); repeat split. Qed.

Lemma refine_in_order s l :
  adjacent in_order_or_flagged (refine_alignment_temporal s l).
Proof.
  unfold refine_alignment_temporal.
  apply adjacent_map.
  eapply adjacent_impl; [|apply apply_temporal_constraints_in_order].
  intros a b. unfold in_order_or_flagged.
  destruct (flag_low_confidence_times s a) as (_ & -> & _).
  destruct (flag_low_confidence_times s b) as (-> & _ & -> & _).
  trivial.
Qed.

(** *** Fixed points of the two loops *)

Lemma constrain_no_overlap previous current :
  video_end_time previous <= video_start_time current ->
  constrain previous current = current.
Proof.
  intros H. unfold constrain.
  apply Qltb_ge in H. rewrite H. reflexivity.
Qed.

Lemma temporal_pass_fixed previous rest :
  adjacent (fun a b => video_end_time a <= video_start_time b) (previous :: rest) ->
  temporal_pass previous rest = rest.
Proof.
  revert previous. induction rest as [|c rest IH]; intros p H; [reflexivity|].
  apply adjacent_cons in H as [Hpc H]. simpl.
  rewrite (constrain_no_overlap _ _ Hpc), (IH _ H). reflexivity.
Qed.

Lemma apply_temporal_constraints_fixed l :
  adjacent (fun a b => video_end_time a <= video_start_time b) l ->
  apply_temporal_constraints l = l.
Proof.
  destruct l as [|a l]; intros H; simpl; [reflexivity|].
  rewrite temporal_pass_fixed; trivial.
Qed.

Lemma flag_low_confidence_idem s a :
  flag_low_confidence s (flag_low_confidence s a) = flag_low_confidence s a.
Proof.
  unfold flag_low_confidence.
  destruct (Qltb (confidence a) _) eqn:E; simpl; rewrite E; reflexivity.
Qed.

Lemma refine_sorted s l : scene_sorted (refine_alignment_temporal s l).
Proof.
  unfold scene_sorted.
  rewrite (frame_scene_number _ _ (refine_frame s l)).
  apply sort_by_scene_sorted.
Qed.

(** *** Confidence bounds through the refiner *)

Lemma constrain_unit previous current :
  Matcher.in_unit (confidence current) ->
  Forall (fun alt => Matcher.in_unit (alt_confidence alt)) (alternative_matches current) ->
  Matcher.in_unit (confidence (constrain previous current)).
Proof.
  intros [H0 H1] Halts. unfold constrain.
  destruct (Qltb _ _); [|split; assumption].
  destruct (first_fitting _ _) as [alt|] eqn:F.
  - unfold first_fitting in F. apply find_some in F as [Hin _].
    rewrite Forall_forall in Halts. apply Halts.
    apply list_elem_of_In. exact Hin.
  - simpl. unfold overlap_penalty, Matcher.in_unit. split; nra.
Qed.

Lemma temporal_pass_unit previous rest :
  Forall Matcher.bounded rest ->
  Forall (fun a => Matcher.in_unit (confidence a)) (temporal_pass previous rest).
Proof.
  revert previous. induction rest as [|c rest IH]; intros p H; simpl.
  - constructor.
  - apply Forall_cons in H as [[Hc Halts] H].
    constructor; [apply constrain_unit; assumption | apply IH, H].
Qed.

Lemma refine_unit s l :
  Forall Matcher.bounded l ->
  Forall (fun a => Matcher.in_unit (confidence a)) (refine_alignment_temporal s l).
Proof.
  intros H. unfold refine_alignment_temporal.
  apply Forall_map.
  assert (Hs : Forall Matcher.bounded (sort_by_scene l)).
  { rewrite (sort_by_scene_perm l). exact H. }
  destruct (sort_by_scene l) as [|a k]; simpl; [constructor|].
  apply Forall_cons in Hs as [[Ha _] Hk].
  constructor.
  - destruct (flag_low_confidence_times s a) as (_ & _ & _ & ->). exact Ha.
  - eapply Forall_impl; [apply temporal_pass_unit, Hk|].
    intros b Hb. simpl.
    destruct (flag_low_confidence_times s b) as (_ & _ & _ & ->). exact Hb.
Qed.

End RefinerFacts.

(** ** Claims about the temporal refiner *)

Module RefinerClaims.
Import Refiner RefinerFacts.

(** C8. [refine_alignment_temporal] returns as many alignments as it
    receives, and position by position it returns the alignments of the
    repair pass (the pairwise loop over the input sorted by scene
    number) with nothing changed but the two review keys: each one gets
    [manual_review_required = true] together with
    [flagged_reason = "low_confidence_alignment"] exactly when its
    confidence after the repair pass is strictly below the threshold,
    and gets [manual_review_required = false] otherwise; with the
    default threshold 0.7 a confidence equal to 0.7 gives [false]. *)
Theorem refine_review_iff_below_threshold (s : Settings) (xs : list Alignment) :
  length (refine_alignment_temporal s xs) = length xs /\
  Forall2 (fun repaired out =>
             frame out = frame repaired /\
             RefinerOutcome.span out = RefinerOutcome.span repaired /\
             temporal_conflict out = temporal_conflict repaired /\
             confidence out = confidence repaired /\
             ((manual_review_required out = Some true /\
               flagged_reason out = Some "low_confidence_alignment"%string)
              <-> confidence repaired < ALIGNMENT_CONFIDENCE_THRESHOLD s) /\
             (~ confidence repaired < ALIGNMENT_CONFIDENCE_THRESHOLD s ->
              manual_review_required out = Some false) /\
             (confidence repaired == ALIGNMENT_CONFIDENCE_THRESHOLD s ->
              manual_review_required out = Some false))
          (apply_temporal_constraints (sort_by_scene xs))
          (refine_alignment_temporal s xs) /\
  Forall (fun a =>
            ((manual_review_required a = Some true /\
              flagged_reason a = Some "low_confidence_alignment"%string)
             <-> confidence a < ALIGNMENT_CONFIDENCE_THRESHOLD s) /\
            (~ confidence a < ALIGNMENT_CONFIDENCE_THRESHOLD s ->
             manual_review_required a = Some false))
         (refine_alignment_temporal s xs) /\
  Forall (fun a => confidence a == 7 # 10 -> manual_review_required a = Some false)
         (refine_alignment_temporal settings xs).
Proof.
  assert (key : forall s' a,
             let b := flag_low_confidence s' a in
             ((manual_review_required b = Some true /\
               flagged_reason b = Some "low_confidence_alignment"%string)
              <-> confidence b < ALIGNMENT_CONFIDENCE_THRESHOLD s') /\
             (~ confidence b < ALIGNMENT_CONFIDENCE_THRESHOLD s' ->
              manual_review_required b = Some false)).
  { intros s' a. unfold flag_low_confidence.
    destruct (Qltb (confidence a) _) eqn:E; simpl.
    - apply Qltb_lt in E. split; [tauto | intros H; contradiction].
    - apply Qltb_ge in E. split; [|reflexivity].
      split; [intros [H _]; discriminate | intros H; exfalso; lra]. }
  assert (same : forall s' a,
             frame (flag_low_confidence s' a) = frame a /\
             RefinerOutcome.span (flag_low_confidence s' a) = RefinerOutcome.span a /\
             temporal_conflict (flag_low_confidence s' a) = temporal_conflict a /\
             confidence (flag_low_confidence s' a) = confidence a).
  { intros s' a. unfold flag_low_confidence.
    destruct (Qltb _ _); repeat split. }
  split; [|split; [|split]].
  - unfold refine_alignment_temporal. rewrite length_map.
    rewrite <- (length_map frame (apply_temporal_constraints (sort_by_scene xs))).
    rewrite apply_temporal_constraints_frame, length_map.
    apply Permutation_length, sort_by_scene_perm.
  - unfold refine_alignment_temporal.
    induction (apply_temporal_constraints (sort_by_scene xs)) as [|a l IH];
      simpl; constructor; [|exact IH].
    destruct (same s a) as (Hf & Hs & Ht & Hc).
    destruct (key s a) as [Hiff Hnot]. simpl in Hiff, Hnot. rewrite Hc in Hiff, Hnot.
    split; [exact Hf|]. split; [exact Hs|]. split; [exact Ht|]. split; [exact Hc|].
    split; [exact Hiff|]. split; [exact Hnot|].
    intros Heq. apply Hnot. lra.
  - unfold refine_alignment_temporal. apply Forall_map, Forall_forall.
    intros a _. apply key.
  - unfold refine_alignment_temporal. apply Forall_map, Forall_forall.
    intros a _ Heq. apply (key settings a). simpl in *. lra.
Qed.


(** C10. [refine_alignment_temporal] returns as many alignments as it
    receives, with the same scene numbers up to order; position by
    position against the input sorted by scene number, [scene_number],
    [scene_text], [confidence_factors] and [alternative_matches] are
    unchanged. *)
Theorem refine_frame_preserved (s : Settings) (xs : list Alignment) :
  length (refine_alignment_temporal s xs) = length xs /\
  map scene_number (refine_alignment_temporal s xs) ≡ₚ map scene_number xs /\
  sort_by_scene xs ≡ₚ xs /\
  map frame (refine_alignment_temporal s xs) = map frame (sort_by_scene xs).
Proof.
  pose proof (refine_frame s xs) as Hframe.
  pose proof (sort_by_scene_perm xs) as Hperm.
  repeat split; trivial.
  - rewrite <- (Permutation_length Hperm).
    rewrite <- (length_map frame (refine_alignment_temporal s xs)), Hframe.
    apply length_map.
  - rewrite (frame_scene_number _ _ Hframe).
    apply Permutation_map, Hperm.
Qed.

(** C3, as the code has it. When the first pass leaves no alignment with
    [temporal_conflict = true], a second pass of
    [refine_alignment_temporal] changes nothing. *)
Theorem refine_idempotent_without_conflict (s : Settings) (xs : list Alignment) :
  Forall (fun a => temporal_conflict a <> Some true) (refine_alignment_temporal s xs) ->
  refine_alignment_temporal s (refine_alignment_temporal s xs)
  = refine_alignment_temporal s xs.
Proof.
  intros Hclean.
  set (r := refine_alignment_temporal s xs) in *.
  assert (Hord : adjacent (fun a b => video_end_time a <= video_start_time b) r).
  { pose proof (refine_in_order s xs) as Hadj. fold r in Hadj.
    clearbody r. clear xs.
    induction r as [|a r IH]; [exact I|].
    destruct r as [|b r]; [exact I|].
    apply adjacent_cons in Hadj as [Hab Hadj].
    apply adjacent_cons. split.
    - destruct Hab as [Hflag | Hle]; [|exact Hle].
      apply Forall_cons in Hclean as [_ Hclean].
      apply Forall_cons in Hclean as [Hb _]. contradiction.
    - apply IH; [|exact Hadj].
      apply Forall_cons in Hclean as [_ Hclean]. exact Hclean. }
  unfold refine_alignment_temporal at 1.
  rewrite (sort_by_scene_fixed r) by apply refine_sorted.
  rewrite (apply_temporal_constraints_fixed r Hord).
  unfold r, refine_alignment_temporal.
  rewrite map_map. apply map_ext. intros a. apply flag_low_confidence_idem.
Qed.


(** Idempotence on a pair of scenes already in order. *)
Lemma refine_idempotent_witness :
  refine_alignment_temporal settings
    (refine_alignment_temporal settings Examples.in_order)
  = refine_alignment_temporal settings Examples.in_order.
Proof.
  apply (refine_idempotent_without_conflict settings Examples.in_order).
  lazy. repeat constructor; discriminate.
Defined.

(** C3, counterexample. Two scenes matched to the same span with no
    alternate: the first pass multiplies the second confidence by 0.7 and
    leaves the conflict, the second pass multiplies it by 0.7 again. *)
Lemma refine_twice_penalises_again :
  refine_alignment_temporal settings
    (refine_alignment_temporal settings Examples.same_span)
  <> refine_alignment_temporal settings Examples.same_span /\
  exists once twice,
    refine_alignment_temporal settings Examples.same_span !! 1%nat = Some once /\
    refine_alignment_temporal settings
      (refine_alignment_temporal settings Examples.same_span) !! 1%nat = Some twice /\
    temporal_conflict once = Some true /\
    confidence once == 63 # 100 /\
    confidence twice == 441 # 1000.
Proof.
  split.
  - intros H. apply (f_equal (map (fun a => Qnum (confidence a)))) in H.
    vm_compute in H. discriminate H.
  - eexists _, _. split; [lazy; reflexivity|]. split; [lazy; reflexivity|].
    split; [reflexivity|]. split; reflexivity.
Qed.

End RefinerClaims.

(** ** Claims about the quality validator *)

Module ValidatorClaims.
Import Validator.

(** C4, as the code has it. On the empty alignment list
    [validate_alignment_quality] returns a report (it is a total
    function) with [total_scenes = 0], [average_confidence = 0],
    [high_confidence_ratio = 0], [temporal_consistency = 1], a quality
    score of 0.2 and [needs_manual_review = true]. *)
Theorem validate_empty (job_id : string) :
  let report := validate_alignment_quality job_id [] in
  status report = "success"%string /\
  total_scenes (scene_statistics report) = 0%nat /\
  average_confidence (quality_factors report) = 0 /\
  high_confidence_ratio (quality_factors report) = 0 /\
  temporal_consistency (quality_factors report) = 1 /\
  quality_score report == 2 # 10 /\
  needs_manual_review report = true.
Proof. repeat split. Qed.

(** C4, counterexample. The report for the empty list does not have
    [temporal_consistency = 0] with [needs_manual_review = false]: the
    consistency is 1 and the review flag is set. *)
Lemma validate_empty_needs_review :
  ~ (temporal_consistency (quality_factors (validate_alignment_quality "job" [])) == 0 /\
     needs_manual_review (validate_alignment_quality "job" []) = false).
Proof. intros [_ H]. vm_compute in H. discriminate H. Qed.

End ValidatorClaims.

(** ** Claims about the script segmenter *)

Module ScriptClaims.
Import Script.

Lemma numbering_snoc n : numbering (S n) = numbering n ++ [number_at n].
Proof. unfold numbering. rewrite seq_S, map_app. reflexivity. Qed.

Lemma numbered_close st :
  numbered st ->
  numbers (scenes st ++ [close st]) = numbering (length (scenes st ++ [close st])).
Proof.
  intros (Hn & Hc & _).
  rewrite length_app. simpl. rewrite Nat.add_1_r, numbering_snoc.
  unfold numbers in *. rewrite map_app, Hn. simpl. rewrite Hc. reflexivity.
Qed.

Lemma step_numbered st line : numbered st -> numbered (step st line).
Proof.
  intros H. unfold step.
  destruct (PyStr.is_empty _); [exact H|].
  destruct (is_scene_marker _ && has_text st) eqn:E.
  - pose proof (numbered_close st H) as Hclose.
    destruct H as (Hn & Hc & Hs).
    split; [exact Hclose|]. simpl.
    rewrite length_app. simpl. rewrite Nat.add_1_r.
    split; [|lia]. rewrite Hs. unfold number_at. lia.
  - destruct (is_scene_marker _); exact H.
Qed.

Lemma fold_step_numbered lines st :
  numbered st -> numbered (fold_left step lines st).
Proof.
  revert st. induction lines as [|l lines IH]; intros st H; simpl; [exact H|].
  apply IH, step_numbered, H.
Qed.

Lemma flush_numbers st :
  numbered st -> numbers (flush st) = numbering (length (flush st)).
Proof.
  intros H. unfold flush.
  destruct (has_text st); [apply numbered_close, H | apply H].
Qed.

(** The numbers [parse_script_file] hands out: the scene at 0-based
    position [k] is numbered [max 1 k], that is 1, 1, 2, 3, ... *)
Theorem parse_script_file_numbers (content : string) :
  numbers (parse_script_file content)
  = numbering (length (parse_script_file content)).
Proof.
  unfold parse_script_file.
  pose proof (flush_numbers (fold_left step (PyStr.split_on PyStr.newline content) initial))
    as H.
  destruct (flush _) as [|sc scs] eqn:E.
  - reflexivity.
  - apply H. apply fold_step_numbered. repeat split.
Qed.

(** C1, at the failing input. The script of two sluglines
    "INT. KITCHEN / She cooks dinner. / EXT. STREET / He walks away."
    yields two scenes, and both carry scene number 1. *)
Theorem parse_script_file_kitchen_numbers :
  numbers (parse_script_file Examples.kitchen_script) = [1; 1]%Z.
Proof. vm_compute. reflexivity. Qed.

End ScriptClaims.

(** ** Claims about the transcript segmenter *)

Module TranscriptClaims.
Import Transcript.

Lemma count_kind_app k l1 l2 :
  count_kind k (l1 ++ l2) = (count_kind k l1 + count_kind k l2)%nat.
Proof. unfold count_kind. rewrite List.filter_app, length_app. reflexivity. Qed.

(** The entries appended at one index: one single, and one window when
    three segments are left. *)
Lemma entries_at_counts segments i :
  (i < length segments)%nat ->
  exists es, entries_at segments i = ok es /\
    count_kind single es = 1%nat /\
    count_kind window es = (if (i + window_size <=? length segments)%nat then 1 else 0)%nat.
Proof.
  intros Hi. unfold entries_at.
  destruct (index_lt segments i Hi) as [seg ->]. simpl.
  destruct (i + window_size <=? length segments)%nat eqn:E.
  - apply Nat.leb_le in E. unfold window_size in *.
    destruct (index_lt segments (i + 3 - 1)) as [lst ->]; [lia|].
    simpl. eexists. split; [reflexivity|]. split; reflexivity.
  - eexists. split; [reflexivity|]. split; reflexivity.
Qed.

Lemma entries_range_counts segments k : forall a,
  (a + k <= length segments)%nat ->
  exists groups, map_result (entries_at segments) (seq a k) = ok groups /\
    count_kind single (concat groups) = k /\
    count_kind window (concat groups)
    = (Nat.min (a + k) (length segments - 2) - Nat.min a (length segments - 2))%nat.
Proof.
  induction k as [|k IH]; intros a Hle.
  - exists []. simpl. repeat split. rewrite Nat.add_0_r, Nat.sub_diag. reflexivity.
  - destruct (entries_at_counts segments a) as (es & Hes & Hs & Hw); [lia|].
    destruct (IH (S a)) as (groups & Hg & Hgs & Hgw); [lia|].
    exists (es :: groups). simpl. rewrite Hes. simpl. rewrite Hg. simpl.
    split; [reflexivity|].
    rewrite !count_kind_app, Hs, Hw, Hgs, Hgw.
    split; [reflexivity|].
    unfold window_size.
    destruct (a + 3 <=? length segments)%nat eqn:E;
      [apply Nat.leb_le in E | apply Nat.leb_gt in E]; lia.
Qed.

(** C7. When the transcript supplies a non-empty [segments] list,
    [process_transcript_segments] returns a list with exactly
    [len(segments)] entries of window type "single" and exactly
    [max(0, len(segments) - window_size + 1)] entries of window type
    "window", where [window_size = 3]. *)
Theorem process_transcript_segments_counts (transcript_data : TranscriptData) :
  td_segments transcript_data <> [] ->
  exists out,
    process_transcript_segments transcript_data = ok out /\
    count_kind single out = length (td_segments transcript_data) /\
    Z.of_nat (count_kind window out)
    = Z.max 0 (Z.of_nat (length (td_segments transcript_data))
               - Z.of_nat window_size + 1) /\
    window_size = 3%nat.
Proof.
  intros Hne. unfold process_transcript_segments.
  destruct (td_segments transcript_data) as [|seg segs] eqn:E; [contradiction|].
  unfold sliding_windows.
  destruct (entries_range_counts (seg :: segs) (length (seg :: segs)) 0)
    as (groups & Hg & Hs & Hw); [lia|].
  rewrite Hg. simpl bind.
  exists (concat groups). split; [reflexivity|].
  split; [exact Hs|]. split; [|reflexivity].
  rewrite Hw. unfold window_size. lia.
Qed.

(** Four supplied segments give four singles and two windows. *)
Lemma process_transcript_segments_counts_witness :
  exists out,
    process_transcript_segments Examples.four_segments = ok out /\
    count_kind single out = 4%nat /\
    Z.of_nat (count_kind window out) = Z.max 0 (4 - Z.of_nat window_size + 1) /\
    window_size = 3%nat.
Proof.
  apply (process_transcript_segments_counts Examples.four_segments).
  simpl. discriminate.
Defined.

(** *** Grouping words *)

Lemma Qeq_opt_refl x : Qeq_opt x x = true.
Proof. destruct x; simpl; [apply Qeq_bool_iff; reflexivity | reflexivity]. Qed.

Lemma word_eqb_refl w : Word.eqb w w = true.
Proof.
  unfold Word.eqb.
  rewrite String.eqb_refl, Qeq_opt_refl.
  rewrite !(proj2 (Qeq_bool_iff _ _)) by reflexivity. reflexivity.
Qed.

Lemma group_words_agree words d : ~ early_last words ->
  forall rest pre segments current_segment current_start,
    words = pre ++ rest ->
    group_words words d rest segments current_segment current_start
    = group_words_by_position d rest segments current_segment current_start.
Proof.
  intros Hno. induction rest as [|word rest IH]; intros pre sgs cur st Hw;
    [reflexivity|].
  assert (Hlast : is_last_word words word
                  = match rest with [] => true | _ => false end).
  { destruct rest as [|r rest'].
    - unfold is_last_word. rewrite Hw, last_snoc. apply word_eqb_refl.
    - destruct (is_last_word words word) eqn:El; [|reflexivity].
      exfalso. apply Hno. exists (length pre), word.
      split; [|split; [|exact El]].
      + rewrite Hw, lookup_app_r by lia.
        rewrite Nat.sub_diag. reflexivity.
      + rewrite Hw, length_app. simpl. lia. }
  simpl. rewrite Hlast.
  assert (Hw' : words = (pre ++ [word]) ++ rest).
  { rewrite <- app_assoc. exact Hw. }
  destruct (Qle_bool d _ || _); apply (IH (pre ++ [word])); exact Hw'.
Qed.

(** When no word before the last one equals the last one,
    [create_segments_from_words] closes a group exactly when the
    duration is reached or the word list ends. *)
Theorem create_segments_by_position (words : list Word.t) (d : Q) :
  ~ early_last words ->
  create_segments_from_words words d = group_words_by_position d words [] [] 0.
Proof.
  intros Hno. unfold create_segments_from_words.
  apply (group_words_agree words d Hno words []). reflexivity.
Qed.

(** C6, at the failing input. For the words "oh", "no", "no" whose last
    two entries are equal dicts, [create_segments_from_words] closes a
    group after the first "no", although 10 seconds are not reached and
    a word is left: it returns the segments "oh no" and "no", where
    grouping by duration and end of list gives the one segment
    "oh no no". *)
Theorem create_segments_repeated_word :
  map BaseSegment.text
      (create_segments_from_words Examples.oh_no_no default_segment_duration)
  = ["oh no"; "no"]%string /\
  map BaseSegment.text
      (group_words_by_position default_segment_duration Examples.oh_no_no [] [] 0)
  = ["oh no no"]%string.
Proof. split; vm_compute; reflexivity. Qed.

End TranscriptClaims.

(** ** Claims about the matcher *)

Module MatcherFacts.
Import Matcher.

Lemma Qnat_nonneg n : 0 <= inject_Z (Z.of_nat n).
Proof. change 0 with (inject_Z 0). rewrite <- Zle_Qle. lia. Qed.

Lemma ratio_unit (a b : Q) : 0 <= a -> a <= b -> 0 < b -> in_unit (a / b).
Proof.
  intros Ha Hab Hb. split.
  - apply Qle_shift_div_l; [exact Hb | lra].
  - apply Qle_shift_div_r; [exact Hb | lra].
Qed.

Lemma compute_length_similarity_unit scene segment l :
  Segment.start_time segment <= Segment.end_time segment ->
  compute_length_similarity scene segment = ok l -> in_unit l.
Proof.
  intros Hdur. unfold compute_length_similarity.
  set (a := inject_Z (Z.of_nat (Scene.word_count scene))).
  set (b := (Segment.end_time segment - Segment.start_time segment) / 60 * 150).
  assert (Ha : 0 <= a) by apply Qnat_nonneg.
  assert (Hb : 0 <= b).
  { unfold b, Qdiv. change (/ 60) with (1 # 60). lra. }
  destruct (Qeq_bool b 0) eqn:E0.
  - intros [= <-]. split; lra.
  - apply Qeq_bool_neq in E0.
    assert (Hpos : 0 < b) by lra.
    destruct (Qeq_bool (py_max a b) 0); [discriminate|].
    intros [= <-]. unfold py_min, py_max.
    destruct (Qltb b a) eqn:Eba; destruct (Qltb a b) eqn:Eab;
      try apply Qltb_lt in Eba; try apply Qltb_ge in Eba;
      try apply Qltb_lt in Eab; try apply Qltb_ge in Eab;
      apply ratio_unit; lra.
Qed.

Lemma position_unit i n :
  (i < n)%nat ->
  in_unit (inject_Z (Z.of_nat i) / inject_Z (Z.max 1 (Z.of_nat n - 1))).
Proof.
  intros Hi. apply ratio_unit.
  - apply Qnat_nonneg.
  - rewrite <- Zle_Qle. lia.
  - change 0 with (inject_Z 0). rewrite <- Zlt_Qlt. lia.
Qed.

Lemma compute_position_similarity_unit i j n k :
  (i < n)%nat -> (j < k)%nat ->
  in_unit (compute_position_similarity i j n k).
Proof.
  intros Hi Hj. unfold compute_position_similarity, Qabs_diff.
  pose proof (position_unit i n Hi) as Hp.
  pose proof (position_unit j k Hj) as Hq.
  revert Hp Hq.
  generalize (inject_Z (Z.of_nat i) / inject_Z (Z.max 1 (Z.of_nat n - 1))).
  generalize (inject_Z (Z.of_nat j) / inject_Z (Z.max 1 (Z.of_nat k - 1))).
  intros q p [? ?] [? ?].
  destruct (Qltb p q) eqn:E;
    [apply Qltb_lt in E | apply Qltb_ge in E]; split; lra.
Qed.

Lemma weighted_unit f :
  in_unit (semantic_similarity f) -> in_unit (length_similarity f) ->
  in_unit (position_similarity f) -> in_unit (transcript_confidence f) ->
  in_unit (weighted f).
Proof.
  unfold in_unit, weighted. intros [? ?] [? ?] [? ?] [? ?]. split; lra.
Qed.

Lemma index_ok {A} (l : list A) i a : index l i = ok a -> l !! i = Some a.
Proof. unfold index. destruct (l !! i); [intros [= ->]; reflexivity | discriminate]. Qed.

Lemma index_Forall {A} (P : A -> Prop) (l : list A) i a :
  Forall P l -> index l i = ok a -> P a.
Proof.
  intros H Hi. apply index_ok in Hi.
  eapply Forall_lookup_1; eassumption.
Qed.

Lemma map_result_Forall {A B} (f : A -> result B) (P : B -> Prop) l bs :
  (forall a b, f a = ok b -> P b) ->
  map_result f l = ok bs -> Forall P bs.
Proof.
  intros Hf. revert bs. induction l as [|a l IH]; intros bs; simpl.
  - intros [= <-]. constructor.
  - destruct (f a) as [e|b] eqn:Ea; [discriminate|]. simpl.
    destruct (map_result f l) as [e|bs'] eqn:El; [discriminate|]. simpl.
    intros [= <-]. constructor; [eapply Hf, Ea | apply IH; reflexivity].
Qed.

Lemma mapi_result_Forall {A B} (f : nat -> A -> result B) (P : B -> Prop) l :
  forall i0 bs,
    (forall j a b, l !! j = Some a -> f (i0 + j)%nat a = ok b -> P b) ->
    mapi_result f i0 l = ok bs -> Forall P bs.
Proof.
  induction l as [|a l IH]; intros i0 bs Hf; simpl.
  - intros [= <-]. constructor.
  - destruct (f i0 a) as [e|b] eqn:Ea; [discriminate|]. simpl.
    destruct (mapi_result f (S i0) l) as [e|bs'] eqn:El; [discriminate|]. simpl.
    intros [= <-]. constructor.
    + apply (Hf 0%nat a b); [reflexivity|]. rewrite Nat.add_0_r. exact Ea.
    + apply (IH (S i0)); [|exact El].
      intros j a' b' Hj Hb. apply (Hf (S j) a' b'); [exact Hj|].
      rewrite Nat.add_succ_r. exact Hb.
Qed.

Lemma alternative_unit segments row idx alt :
  Forall in_unit row ->
  alternative segments row idx = ok alt -> in_unit (alt_confidence alt).
Proof.
  intros Hrow. unfold alternative.
  destruct (index segments idx) as [e|seg]; [discriminate|]. simpl.
  destruct (index row idx) as [e|c] eqn:Ec; [discriminate|]. simpl.
  intros [= <-]. simpl. eapply index_Forall; eassumption.
Qed.

(** The ranked indices point into the row they rank, so reading the
    best similarity back cannot fail. *)
Lemma insert_index_in_range row n i sorted :
  (i < n)%nat -> Forall (fun j => (j < n)%nat) sorted ->
  Forall (fun j => (j < n)%nat) (insert_index row i sorted).
Proof.
  intros Hi. induction sorted as [|j sorted IH]; intros H; simpl.
  - constructor; [exact Hi | constructor].
  - destruct (Qle_bool _ _).
    + constructor; [exact Hi | exact H].
    + apply Forall_cons in H as [Hj H]. constructor; [exact Hj | apply IH, H].
Qed.

Lemma argsort_in_range row :
  Forall (fun j => (j < length row)%nat) (argsort row).
Proof.
  unfold argsort.
  assert (H : Forall (fun j => (j < length row)%nat) (seq 0 (length row))).
  { apply Forall_forall. intros j Hj. apply list_elem_of_In, in_seq in Hj. lia. }
  induction H as [|i l Hi _ IH]; simpl.
  - constructor.
  - apply insert_index_in_range; assumption.
Qed.

Lemma top_indices_in_range row :
  Forall (fun j => (j < length row)%nat) (top_indices row).
Proof.
  unfold top_indices. apply Forall_take, Forall_rev, argsort_in_range.
Qed.

Lemma best_similarity_defined row best :
  index (top_indices row) 0 = ok best -> exists c, index row best = ok c.
Proof.
  intros H. apply index_lt.
  exact (index_Forall _ _ _ _ (top_indices_in_range row) H).
Qed.

(** Every alignment the per-scene body produces is [bounded]. *)
Lemma match_scene_bounded scenes segments m i scene a :
  unit_matrix m -> Forall plausible_segment segments ->
  (i < length scenes)%nat ->
  match_scene scenes segments m i scene = ok a -> bounded a.
Proof.
  intros Hm Hsegs Hi. unfold match_scene.
  destruct (index m i) as [e|row] eqn:Erow; [discriminate|]. simpl.
  assert (Hrow : Forall in_unit row) by (eapply index_Forall; eassumption).
  destruct (index (top_indices row) 0) as [e|best] eqn:Ebest; [discriminate|]. simpl.
  destruct (index segments best) as [e|seg] eqn:Eseg; [discriminate|]. simpl.
  destruct (index row best) as [e|c] eqn:Ec; [discriminate|]. simpl.
  destruct (compute_length_similarity scene seg) as [e|l] eqn:El; [discriminate|]. simpl.
  destruct (map_result _ _) as [e|alts] eqn:Ealts; [discriminate|]. simpl.
  intros [= <-].
  destruct (index_Forall _ _ _ _ Hsegs Eseg) as [Hdur Hconf].
  split; simpl.
  - apply weighted_unit; simpl.
    + eapply index_Forall; eassumption.
    + eapply compute_length_similarity_unit; eassumption.
    + apply compute_position_similarity_unit; [exact Hi|].
      apply index_ok in Eseg. eapply lookup_lt_Some, Eseg.
    + exact Hconf.
  - eapply map_result_Forall; [|exact Ealts].
    intros idx alt. apply alternative_unit, Hrow.
Qed.

End MatcherFacts.

Module MatcherClaims.
Import Matcher MatcherFacts.

(** C2, as the code has it. When every entry of the similarity matrix
    lies in [0, 1] and every transcript segment has [start_time <=
    end_time] and a confidence in [0, 1], every alignment returned by
    [perform_semantic_matching] has a confidence in [0, 1], and so has
    every alignment after [refine_alignment_temporal]. *)
Theorem confidence_in_unit_interval
    (cosine_similarity : list (list Q) -> list (list Q) -> result (list (list Q)))
    (s : Settings) (scenes : list Scene.t) (segments : list Segment.t)
    (scene_embeddings segment_embeddings : list (list Q))
    (m : list (list Q)) (alignments : list Alignment) :
  cosine_similarity scene_embeddings segment_embeddings = ok m ->
  unit_matrix m ->
  Forall plausible_segment segments ->
  perform_semantic_matching cosine_similarity scenes segments
    scene_embeddings segment_embeddings = ok alignments ->
  Forall (fun a => in_unit (confidence a)) alignments /\
  Forall (fun a => in_unit (confidence a))
         (Refiner.refine_alignment_temporal s alignments).
Proof.
  intros Hcos Hm Hsegs. unfold perform_semantic_matching. rewrite Hcos. simpl.
  intros Hmap.
  assert (Hb : Forall bounded alignments).
  { eapply mapi_result_Forall; [|exact Hmap].
    intros j scene a Hj Ha. simpl in Ha.
    eapply match_scene_bounded; [exact Hm | exact Hsegs | | exact Ha].
    eapply lookup_lt_Some, Hj. }
  split.
  - eapply Forall_impl; [exact Hb|]. intros a [Ha _]. exact Ha.
  - apply RefinerFacts.refine_unit, Hb.
Qed.

Lemma in_unit_checked q : Qle_bool 0 q && Qle_bool q 1 = true -> in_unit q.
Proof.
  intros H. apply andb_true_iff in H as [H0 H1].
  split; apply Qle_bool_iff; assumption.
Qed.

(** The bounds on two scenes matched against three candidates. *)
Lemma confidence_in_unit_interval_witness :
  exists alignments,
    perform_semantic_matching dot_similarity Examples.kitchen_scenes
      Examples.three_candidates Examples.scene_vectors Examples.segment_vectors
    = ok alignments /\
    Forall (fun a => in_unit (confidence a)) alignments /\
    Forall (fun a => in_unit (confidence a))
           (Refiner.refine_alignment_temporal settings alignments).
Proof.
  eexists. split; [lazy; reflexivity|].
  eapply (confidence_in_unit_interval dot_similarity settings
            Examples.kitchen_scenes Examples.three_candidates
            Examples.scene_vectors Examples.segment_vectors).
  - lazy. reflexivity.
  - unfold unit_matrix.
    repeat (match goal with |- Forall _ _ => constructor end);
      apply in_unit_checked; reflexivity.
  - repeat (match goal with |- Forall _ _ => constructor end);
      (split; [apply Qle_bool_iff; reflexivity | apply in_unit_checked; reflexivity]).
  - lazy. reflexivity.
Defined.

(** C2, counterexample. A scene whose embedding is the opposite of the
    only segment's embedding has cosine similarity -1; its composite
    confidence is -0.5 + 0.12 + 0.2 + 0.09 = -0.09, before and after the
    refiner. *)
Lemma matcher_confidence_negative :
  exists a,
    perform_semantic_matching dot_similarity Examples.lone_scene
      Examples.opposite_candidate [[1; 0]] [[-1; 0]] = ok [a] /\
    confidence a == - (9 # 100) /\
    ~ in_unit (confidence a) /\
    Forall (fun b => ~ in_unit (confidence b))
           (Refiner.refine_alignment_temporal settings [a]).
Proof.
  eexists. split; [lazy; reflexivity|].
  split; [reflexivity|].
  split.
  - intros [H _]. apply Qle_bool_iff in H. discriminate H.
  - repeat constructor. intros [H _]. apply Qle_bool_iff in H. discriminate H.
Qed.

(** C5, as the code has it. [perform_semantic_matching] has no check of
    its own for empty collections and raises no error of its own for
    them. Within its contract (one embedding per scene and per segment)
    and with a similarity routine that rejects empty embeddings, an
    empty scene or segment collection makes it fail with the error that
    routine raised. Whenever the routine returns a matrix, no scene
    gives the empty alignment list, and at least one scene with no
    segment gives an [IndexError]. *)
Theorem matcher_empty_collections
    (cosine_similarity : list (list Q) -> list (list Q) -> result (list (list Q)))
    (segments : list Segment.t) (scene : Scene.t) (scenes : list Scene.t)
    (scene_embeddings segment_embeddings : list (list Q)) :
  perform_semantic_matching cosine_similarity [] segments
    scene_embeddings segment_embeddings
  = (let* m := cosine_similarity scene_embeddings segment_embeddings in ok []) /\
  perform_semantic_matching cosine_similarity (scene :: scenes) []
    scene_embeddings segment_embeddings
  = (let* m := cosine_similarity scene_embeddings segment_embeddings in
     raise IndexError) /\
  (rejects_empty cosine_similarity ->
   forall (some_scenes : list Scene.t) (some_segments : list Segment.t),
     length scene_embeddings = length some_scenes ->
     length segment_embeddings = length some_segments ->
     some_scenes = [] \/ some_segments = [] ->
     exists e,
       cosine_similarity scene_embeddings segment_embeddings = raise e /\
       perform_semantic_matching cosine_similarity some_scenes some_segments
         scene_embeddings segment_embeddings = raise e).
Proof.
  unfold perform_semantic_matching. split; [|split].
  - reflexivity.
  - destruct (cosine_similarity _ _) as [e|m]; [reflexivity|]. simpl.
    unfold match_scene.
    destruct (index m 0) as [e|row] eqn:Erow; simpl.
    { unfold index in Erow. destruct (m !! 0%nat); [discriminate|].
      injection Erow as <-. reflexivity. }
    destruct (index (top_indices row) 0) as [e|best] eqn:Ebest; simpl.
    { unfold index in Ebest. destruct (top_indices row !! 0%nat); [discriminate|].
      injection Ebest as <-. reflexivity. }
    reflexivity.
  - intros Hrejects some_scenes some_segments Hscenes Hsegments Hempty.
    destruct (Hrejects scene_embeddings segment_embeddings) as [e He].
    { destruct Hempty as [-> | ->]; [left | right];
        apply length_zero_iff_nil; assumption. }
    exists e. split; [exact He|]. rewrite He. reflexivity.
Qed.

(** The contract case on a validating routine: one scene, no segment,
    no segment embedding. *)
Lemma matcher_empty_collections_witness :
  exists e,
    dot_similarity [[1; 0]] [] = raise e /\
    perform_semantic_matching dot_similarity Examples.lone_scene []
      [[1; 0]] [] = raise e.
Proof.
  apply (proj2 (proj2 (matcher_empty_collections dot_similarity []
                         Examples.cooking_scene [] [[1; 0]] []))).
  - intros X Y [-> | ->]; [|destruct X]; eexists; reflexivity.
  - reflexivity.
  - reflexivity.
  - right. reflexivity.
Defined.

(** C5, counterexample. On empty collections with their (empty)
    embeddings the matcher does fail, but not with an error of its own
    for invalid input: what comes out is the [ValueError] of the
    similarity routine, which the matcher merely lets through. *)
Lemma matcher_empty_inputs_value_error :
  perform_semantic_matching dot_similarity [] [] [] [] = raise ValueError /\
  perform_semantic_matching dot_similarity Examples.lone_scene []
    [[1; 0]] [] = raise ValueError /\
  perform_semantic_matching dot_similarity [] Examples.three_candidates
    [] Examples.segment_vectors = raise ValueError /\
  dot_similarity [] Examples.segment_vectors = raise ValueError.
Proof. repeat split. Qed.

End MatcherClaims.

(** ** Further properties of the temporal refiner *)

Module RefinerExtras.
Import Refiner RefinerFacts RefinerOutcome.

Lemma adjacent_Sorted {A} (R : A -> A -> Prop) (l : list A) :
  adjacent R l -> Sorted R l.
Proof.
  induction l as [|a l IH]; intros H; [constructor|].
  destruct l as [|b l].
  - constructor; constructor.
  - apply adjacent_cons in H as [Hab H].
    constructor; [apply IH, H | constructor; exact Hab].
Qed.

(** The output of [refine_alignment_temporal] is in ascending order of
    scene number. *)
Theorem refine_output_sorted (s : Settings) (xs : list Alignment) :
  Sorted Z.le (map scene_number (refine_alignment_temporal s xs)).
Proof. apply adjacent_Sorted, refine_sorted. Qed.

Lemma constrain_outcome previous current :
  outcome current (constrain previous current).
Proof.
  unfold constrain, outcome.
  destruct (Qltb _ _).
  - destruct (first_fitting _ _) as [alt|] eqn:F.
    + right; right. exists alt.
      unfold first_fitting in F. apply find_some in F as [Hin _].
      repeat split. exact Hin.
    + right; left. repeat split.
  - left. repeat split.
Qed.

Lemma flag_outcome s before after :
  outcome before after -> outcome before (flag_low_confidence s after).
Proof.
  unfold outcome, untouched, penalised, repaired, span.
  destruct (flag_low_confidence_times s after) as (Hs & He & Ht & Hc).
  assert (Hid : matched_segment_id (flag_low_confidence s after)
                = matched_segment_id after).
  { unfold flag_low_confidence. destruct (Qltb _ _); reflexivity. }
  rewrite Hs, He, Ht, Hc, Hid. trivial.
Qed.

Lemma temporal_pass_outcome previous rest :
  Forall2 outcome rest (temporal_pass previous rest).
Proof.
  revert previous. induction rest as [|c rest IH]; intros p; simpl.
  - constructor.
  - constructor; [apply constrain_outcome | apply IH].
Qed.

(** Position by position against the input sorted by scene number, an
    alignment leaves [refine_alignment_temporal] in one of three ways:
    with span, confidence and conflict flag untouched; with the same span,
    its confidence times 0.7 and [temporal_conflict = true]; or with the
    span and confidence of one of its own alternates and
    [temporal_conflict = false]. *)
Theorem refine_outcomes (s : Settings) (xs : list Alignment) :
  Forall2 outcome (sort_by_scene xs) (refine_alignment_temporal s xs).
Proof.
  unfold refine_alignment_temporal.
  assert (H : Forall2 outcome (sort_by_scene xs)
                      (apply_temporal_constraints (sort_by_scene xs))).
  { destruct (sort_by_scene xs) as [|a l]; simpl; constructor.
    - left. repeat split.
    - apply temporal_pass_outcome. }
  revert H. generalize (apply_temporal_constraints (sort_by_scene xs)).
  generalize (sort_by_scene xs).
  intros l k H. induction H as [|a b l k Hab _ IH]; simpl; constructor.
  - apply flag_outcome, Hab.
  - exact IH.
Qed.

(** The alignment with the lowest scene number is never penalised or
    repaired: its span, confidence and conflict flag are those of the
    input. *)
Theorem refine_first_untouched (s : Settings) (xs : list Alignment)
    (first out : Alignment) :
  sort_by_scene xs !! 0%nat = Some first ->
  refine_alignment_temporal s xs !! 0%nat = Some out ->
  untouched first out.
Proof.
  unfold refine_alignment_temporal.
  destruct (sort_by_scene xs) as [|a l]; [discriminate|]. simpl.
  intros [= <-] [= <-].
  unfold untouched, span.
  destruct (flag_low_confidence_times s a) as (-> & -> & -> & ->).
  assert (Hid : matched_segment_id (flag_low_confidence s a) = matched_segment_id a).
  { unfold flag_low_confidence. destruct (Qltb _ _); reflexivity. }
  rewrite Hid. repeat split.
Qed.

(** The outcome on the repaired pair: the first alignment is the scene
    numbered 1. *)
Lemma refine_first_untouched_witness :
  exists first out,
    sort_by_scene Examples.repaired !! 0%nat = Some first /\
    refine_alignment_temporal settings Examples.repaired !! 0%nat = Some out /\
    untouched first out.
Proof.
  eexists _, _. split; [lazy; reflexivity|]. split; [lazy; reflexivity|].
  eapply (refine_first_untouched settings Examples.repaired); lazy; reflexivity.
Defined.

(** On alignments already in scene order whose spans follow one another,
    [refine_alignment_temporal] only writes the review flags. *)
Theorem refine_in_sequence (s : Settings) (xs : list Alignment) :
  in_sequence xs ->
  refine_alignment_temporal s xs = map (flag_low_confidence s) xs.
Proof.
  intros [Hsorted Hord]. unfold refine_alignment_temporal.
  rewrite (sort_by_scene_fixed xs Hsorted).
  rewrite (apply_temporal_constraints_fixed xs Hord). reflexivity.
Qed.

Lemma refine_in_sequence_witness :
  refine_alignment_temporal settings Examples.in_order
  = map (flag_low_confidence settings) Examples.in_order.
Proof.
  apply (refine_in_sequence settings Examples.in_order).
  split.
  - unfold scene_sorted. simpl. split; [lia | exact I].
  - simpl. split; [apply Qle_bool_iff; reflexivity | exact I].
Defined.

(** A [flagged_reason] is never removed: an alignment that enters with a
    reason leaves with one, also when [manual_review_required] is set to
    [false]. *)
Theorem refine_keeps_reason (s : Settings) (xs : list Alignment) :
  Forall2 (fun before after =>
             flagged_reason after = Some "low_confidence_alignment"%string \/
             (flagged_reason after = flagged_reason before /\
              manual_review_required after = Some false))
          (sort_by_scene xs) (refine_alignment_temporal s xs).
Proof.
  unfold refine_alignment_temporal.
  assert (H : Forall2 (fun a b => flagged_reason b = flagged_reason a)
                      (sort_by_scene xs)
                      (apply_temporal_constraints (sort_by_scene xs))).
  { destruct (sort_by_scene xs) as [|a l]; simpl; constructor; [reflexivity|].
    generalize a. induction l as [|c l IH]; intros p; simpl; constructor.
    - unfold constrain. destruct (Qltb _ _); [|reflexivity].
      destruct (first_fitting _ _); reflexivity.
    - apply IH. }
  revert H. generalize (apply_temporal_constraints (sort_by_scene xs)).
  generalize (sort_by_scene xs).
  intros l k H. induction H as [|a b l k Hab _ IH]; simpl; constructor; [|exact IH].
  unfold flag_low_confidence. destruct (Qltb _ _); simpl.
  - left. reflexivity.
  - right. split; [exact Hab | reflexivity].
Qed.

End RefinerExtras.

(** ** Further properties of the quality validator *)

Module ValidatorExtras.
Import Validator.

Lemma count_le p l : (count p l <= length l)%nat.
Proof. unfold count. apply List.filter_length_le. Qed.

Lemma count_all p l : Forall (fun a => p a = true) l -> count p l = length l.
Proof.
  unfold count. induction 1 as [|a l Ha _ IH]; simpl; [reflexivity|].
  rewrite Ha. simpl. rewrite IH. reflexivity.
Qed.

Lemma count_none p l : Forall (fun a => p a = false) l -> count p l = 0%nat.
Proof.
  unfold count. induction 1 as [|a l Ha _ IH]; simpl; [reflexivity|].
  rewrite Ha. exact IH.
Qed.

Lemma Qnat_le a b : (a <= b)%nat -> Qnat a <= Qnat b.
Proof. intros H. unfold Qnat. rewrite <- Zle_Qle. lia. Qed.

Lemma Qnat_pos n : (0 < n)%nat -> 0 < Qnat n.
Proof.
  intros H. unfold Qnat. change 0 with (inject_Z 0). rewrite <- Zlt_Qlt. lia.
Qed.

Lemma Qnat_S n : Qnat (S n) == Qnat n + 1.
Proof.
  unfold Qnat. rewrite Nat2Z.inj_succ, <- Z.add_1_r, inject_Z_plus. reflexivity.
Qed.

Lemma Qsum_bounds (lo hi : Q) (l : list Q) :
  Forall (fun q => lo <= q /\ q <= hi) l ->
  lo * Qnat (length l) <= Qsum l /\ Qsum l <= hi * Qnat (length l).
Proof.
  induction 1 as [|q l [Hlo Hhi] _ [IHlo IHhi]].
  - change (Qnat (length [])) with 0. change (Qsum []) with 0. split; lra.
  - change (Qsum (q :: l)) with (q + Qsum l).
    change (length (q :: l)) with (S (length l)).
    rewrite Qnat_S. split; lra.
Qed.

Lemma mean_bounds (lo hi : Q) (l : list Q) :
  l <> [] -> Forall (fun q => lo <= q /\ q <= hi) l ->
  lo <= mean l /\ mean l <= hi.
Proof.
  intros Hne H. destruct (Qsum_bounds lo hi l H) as [Hlo Hhi].
  assert (Hpos : 0 < Qnat (length l)).
  { apply Qnat_pos. destruct l; [contradiction | simpl; lia]. }
  unfold mean. fold (Qnat (length l)). split.
  - apply Qle_shift_div_l; [exact Hpos | exact Hlo].
  - apply Qle_shift_div_r; [exact Hpos | exact Hhi].
Qed.

Lemma bucket_exclusive (q : Q) :
  (Nat.b2n (Qltb (8 # 10) q)
   + Nat.b2n (Qle_bool (5 # 10) q && Qle_bool q (8 # 10))
   + Nat.b2n (Qltb q (5 # 10)) = 1)%nat.
Proof.
  unfold Qltb.
  destruct (Qle_bool q (8 # 10)) eqn:A; destruct (Qle_bool (5 # 10) q) eqn:B;
    try reflexivity.
  exfalso.
  apply not_true_iff_false in A, B. rewrite Qle_bool_iff in A, B. lra.
Qed.

(** The three confidence buckets partition the alignments: every
    alignment is counted in exactly one of high, medium and low. *)
Theorem buckets_partition (job_id : string) (alignments : list Alignment) :
  let stats := scene_statistics (validate_alignment_quality job_id alignments) in
  (high_confidence stats + medium_confidence stats + low_confidence stats
   = total_scenes stats)%nat /\
  total_scenes stats = length alignments.
Proof.
  simpl. split; [|reflexivity]. unfold count.
  induction alignments as [|a l IH]; [reflexivity|].
  simpl. pose proof (bucket_exclusive (confidence a)) as H.
  destruct (Qltb (8 # 10) (confidence a));
    destruct (Qle_bool (5 # 10) (confidence a) && Qle_bool (confidence a) (8 # 10));
    destruct (Qltb (confidence a) (5 # 10)); simpl in *; lia.
Qed.

Lemma ratios_bounded (job_id : string) (alignments : list Alignment) :
  let report := validate_alignment_quality job_id alignments in
  Matcher.in_unit (high_confidence_ratio (quality_factors report)) /\
  Matcher.in_unit (temporal_consistency (quality_factors report)) /\
  (temporal_conflicts (scene_statistics report) <= length alignments)%nat.
Proof.
  simpl. split; [|split]; [| |apply count_le].
  - destruct (0 <? length alignments)%nat eqn:E; [|split; lra].
    apply Nat.ltb_lt in E.
    apply MatcherFacts.ratio_unit;
      [apply MatcherFacts.Qnat_nonneg | apply Qnat_le, count_le | apply Qnat_pos, E].
  - destruct (0 <? length alignments)%nat eqn:E; [|split; lra].
    apply Nat.ltb_lt in E.
    destruct (MatcherFacts.ratio_unit (Qnat (count has_conflict alignments))
                                      (Qnat (length alignments))) as [H0 H1];
      [apply MatcherFacts.Qnat_nonneg | apply Qnat_le, count_le | apply Qnat_pos, E |].
    revert H0 H1. generalize (Qnat (count has_conflict alignments) / Qnat (length alignments)).
    intros r H0 H1. split; lra.
Qed.

(** The two ratios are proportions for every input, and the conflict
    count never exceeds the number of alignments. *)
Theorem ratios_in_unit (job_id : string) (alignments : list Alignment) :
  let report := validate_alignment_quality job_id alignments in
  Matcher.in_unit (high_confidence_ratio (quality_factors report)) /\
  Matcher.in_unit (temporal_consistency (quality_factors report)) /\
  (temporal_conflicts (scene_statistics report) <= length alignments)%nat.
Proof. apply ratios_bounded. Qed.

(** When every confidence lies in [0, 1], so do the average confidence
    and the quality score. *)
Theorem quality_score_in_unit (job_id : string) (alignments : list Alignment) :
  Forall (fun a => Matcher.in_unit (confidence a)) alignments ->
  let report := validate_alignment_quality job_id alignments in
  Matcher.in_unit (average_confidence (quality_factors report)) /\
  Matcher.in_unit (quality_score report).
Proof.
  intros Hunit.
  destruct (ratios_bounded job_id alignments) as ([Hh0 Hh1] & [Ht0 Ht1] & _).
  simpl in *.
  assert (Havg : Matcher.in_unit
                   match map confidence alignments with
                   | [] => 0
                   | _ => mean (map confidence alignments)
                   end).
  { destruct alignments as [|a l]; [simpl; split; lra|].
    change (map confidence (a :: l)) with (confidence a :: map confidence l).
    apply (mean_bounds 0 1); [discriminate|].
    change (confidence a :: map confidence l) with (map confidence (a :: l)).
    apply Forall_map. exact Hunit. }
  split; [exact Havg|].
  revert Havg Hh0 Hh1 Ht0 Ht1.
  generalize (match map confidence alignments with
              | [] => 0
              | _ => mean (map confidence alignments)
              end).
  generalize (if (0 <? length alignments)%nat
              then Qnat (count (fun a => Qltb (8 # 10) (confidence a)) alignments)
                   / Qnat (length alignments)
              else 0).
  generalize (if (0 <? length alignments)%nat
              then 1 - Qnat (count has_conflict alignments) / Qnat (length alignments)
              else 1).
  intros t h avg [? ?] ? ? ? ?. split; lra.
Qed.

Lemma quality_score_in_unit_witness :
  Matcher.in_unit
    (average_confidence
       (quality_factors (validate_alignment_quality "job" Examples.in_order))) /\
  Matcher.in_unit (quality_score (validate_alignment_quality "job" Examples.in_order)).
Proof.
  apply (quality_score_in_unit "job" Examples.in_order).
  repeat (match goal with |- Forall _ _ => constructor end);
    apply MatcherClaims.in_unit_checked; reflexivity.
Defined.

Lemma mean_lower (lo : Q) (l : list Q) :
  l <> [] -> Forall (fun q => lo <= q) l -> lo <= mean l.
Proof.
  intros Hne H.
  assert (Hsum : lo * Qnat (length l) <= Qsum l).
  { induction H as [|q k Hq _ IH].
    - contradiction.
    - change (Qsum (q :: k)) with (q + Qsum k).
      change (length (q :: k)) with (S (length k)). rewrite Qnat_S.
      destruct k as [|q' k'].
      + change (Qnat (length [])) with 0. change (Qsum []) with 0. lra.
      + assert (IH' := IH ltac:(discriminate)). lra. }
  unfold mean. fold (Qnat (length l)).
  apply Qle_shift_div_l; [|exact Hsum].
  apply Qnat_pos. destruct l; [contradiction | simpl; lia].
Qed.

(** A non-empty list whose confidences all exceed 0.8 and which carries
    no temporal conflict needs no manual review and gets no
    recommendation. *)
Theorem all_high_no_review (job_id : string) (alignments : list Alignment) :
  alignments <> [] ->
  Forall (fun a => 8 # 10 < confidence a) alignments ->
  Forall (fun a => has_conflict a = false) alignments ->
  needs_manual_review (validate_alignment_quality job_id alignments) = false /\
  recommendations (validate_alignment_quality job_id alignments) = [].
Proof.
  intros Hne Hhigh Hclean.
  assert (Hn : (0 < length alignments)%nat).
  { destruct alignments; [contradiction | simpl; lia]. }
  pose proof (Qnat_pos _ Hn) as Hpos.
  assert (Hcount_high :
            count (fun a => Qltb (8 # 10) (confidence a)) alignments = length alignments).
  { apply count_all. eapply Forall_impl; [exact Hhigh|].
    intros a Ha. apply Qltb_lt, Ha. }
  assert (Hlow : List.filter (fun a => Qltb (confidence a) (5 # 10)) alignments = []).
  { clear -Hhigh. induction Hhigh as [|a l Ha _ IH]; simpl; [reflexivity|].
    assert (E : Qltb (confidence a) (5 # 10) = false) by (apply Qltb_ge; lra).
    rewrite E. exact IH. }
  assert (Hconf : count has_conflict alignments = 0%nat) by (apply count_none, Hclean).
  assert (Havg : 8 # 10 <= mean (map confidence alignments)).
  { apply mean_lower.
    - destruct alignments; [contradiction | discriminate].
    - apply Forall_map. eapply Forall_impl; [exact Hhigh|].
      intros a Ha. cbv beta in *. apply Qlt_le_weak, Ha. }
  assert (Hratio : 1 <= Qnat (length alignments) / Qnat (length alignments)).
  { apply Qle_shift_div_l; [exact Hpos | lra]. }
  assert (Hzero : Qnat 0 / Qnat (length alignments) == 0).
  { unfold Qdiv. change (Qnat 0) with 0. apply Qmult_0_l. }
  unfold validate_alignment_quality, generate_alignment_recommendations.
  cbn [needs_manual_review recommendations quality_factors average_confidence
       high_confidence_ratio temporal_consistency].
  unfold count at 3. rewrite Hlow, Hcount_high, Hconf.
  apply Nat.ltb_lt in Hn. rewrite Hn.
  assert (Eavg : match map confidence alignments with
                 | [] => 0
                 | _ => mean (map confidence alignments)
                 end = mean (map confidence alignments)).
  { destruct alignments; [contradiction | reflexivity]. }
  rewrite Eavg.
  revert Havg Hratio Hzero.
  generalize (mean (map confidence alignments)).
  generalize (Qnat (length alignments) / Qnat (length alignments)).
  generalize (Qnat 0 / Qnat (length alignments)).
  intros z r avg Havg Hratio Hzero.
  change (Qnat (length (@nil Alignment))) with (Qnat 0).
  assert (E1 : Qltb (avg * (5 # 10) + r * (3 # 10) + (1 - z) * (2 # 10)) (6 # 10) = false)
    by (apply Qltb_ge; lra).
  assert (E2 : Qltb (Qnat (length alignments) * (3 # 10)) (Qnat 0) = false).
  { apply Qltb_ge. change (Qnat 0) with 0. lra. }
  assert (E3 : Qltb (Qnat (length alignments) * (1 # 10)) (Qnat 0) = false).
  { apply Qltb_ge. change (Qnat 0) with 0. lra. }
  assert (E4 : Qltb avg (6 # 10) = false) by (apply Qltb_ge; lra).
  assert (E5 : Qltb r (5 # 10) = false) by (apply Qltb_ge; lra).
  assert (E6 : Qltb (1 - z) (8 # 10) = false) by (apply Qltb_ge; lra).
  rewrite E1, E2, E3, E4, E5, E6. split; reflexivity.
Qed.

Lemma all_high_no_review_witness :
  needs_manual_review (validate_alignment_quality "job" Examples.confident_pair) = false /\
  recommendations (validate_alignment_quality "job" Examples.confident_pair) = [].
Proof.
  apply (all_high_no_review "job" Examples.confident_pair).
  - discriminate.
  - repeat (match goal with |- Forall _ _ => constructor end);
      apply Qltb_lt; reflexivity.
  - repeat (match goal with |- Forall _ _ => constructor end); reflexivity.
Defined.

End ValidatorExtras.

(** ** Further properties of the script segmenter *)

Module ScriptExtras.
Import Script ScriptLines.

(** *** [split] and [strip] *)

Lemma split_go_blank s :
  PyStr.rstrip s = EmptyString ->
  forall cur, PyStr.split_go cur s = if PyStr.is_empty cur then [] else [cur].
Proof.
  induction s as [|c s IH]; intros H cur; [reflexivity|].
  simpl in H. destruct (PyStr.rstrip s) eqn:E; [|discriminate].
  destruct (PyStr.is_space c) eqn:Ec; [|discriminate].
  simpl. rewrite Ec. rewrite (IH eq_refl EmptyString).
  destruct (PyStr.is_empty cur); reflexivity.
Qed.

Lemma split_go_rstrip s : forall cur,
  PyStr.split_go cur (PyStr.rstrip s) = PyStr.split_go cur s.
Proof.
  induction s as [|c s IH]; intros cur; [reflexivity|].
  simpl. destruct (PyStr.rstrip s) as [|d t] eqn:E.
  - pose proof (split_go_blank s E) as Hblank.
    destruct (PyStr.is_space c) eqn:Ec.
    + simpl. rewrite (Hblank EmptyString).
      destruct (PyStr.is_empty cur); reflexivity.
    + simpl. rewrite Ec. rewrite Hblank. reflexivity.
  - simpl. destruct (PyStr.is_space c).
    + destruct (PyStr.is_empty cur); rewrite <- IH; reflexivity.
    + rewrite <- IH. reflexivity.
Qed.

Lemma split_lstrip s : PyStr.split (PyStr.lstrip s) = PyStr.split s.
Proof.
  unfold PyStr.split. induction s as [|c s IH]; [reflexivity|].
  simpl. destruct (PyStr.is_space c) eqn:Ec; [exact IH|].
  simpl. rewrite Ec. reflexivity.
Qed.

(** [s.strip().split()] and [s.split()] give the same words. *)
Lemma split_strip s : PyStr.split (PyStr.strip s) = PyStr.split s.
Proof.
  unfold PyStr.strip. unfold PyStr.split at 1.
  rewrite split_go_rstrip. apply split_lstrip.
Qed.

(** *** Invariants of the line loop *)

Lemma fold_step_invariant (P : state -> Prop) :
  (forall st line, P st -> P (step st line)) ->
  forall lines st, P st -> P (fold_left step lines st).
Proof.
  intros Hstep lines. induction lines as [|l lines IH]; intros st H; simpl.
  - exact H.
  - apply IH, Hstep, H.
Qed.

Lemma close_has_body st : has_text st = true -> has_body (close st).
Proof.
  unfold has_text, has_body, close. simpl. intros H.
  apply negb_true_iff in H. exact H.
Qed.

Lemma step_bodies st line :
  Forall has_body (scenes st) -> Forall has_body (scenes (step st line)).
Proof.
  intros H. unfold step.
  destruct (PyStr.is_empty _); [exact H|].
  destruct (is_scene_marker _); simpl.
  - destruct (has_text st) eqn:E; simpl; [|exact H].
    apply Forall_app. split; [exact H|].
    constructor; [apply close_has_body, E | constructor].
  - exact H.
Qed.

(** [parse_script_file] never returns an empty list, and unless the
    content is blank every scene it returns has a non-empty text. *)
Theorem parse_script_file_bodies (content : string) :
  (1 <= length (parse_script_file content))%nat /\
  (Forall has_body (parse_script_file content) \/
   PyStr.strip content = EmptyString).
Proof.
  unfold parse_script_file.
  set (st := fold_left step (PyStr.split_on PyStr.newline content) initial).
  assert (Hst : Forall has_body (scenes st)).
  { apply (fold_step_invariant (fun st => Forall has_body (scenes st))).
    - apply step_bodies.
    - constructor. }
  assert (Hflush : Forall has_body (flush st)).
  { unfold flush. destruct (has_text st) eqn:E; [|exact Hst].
    apply Forall_app. split; [exact Hst|].
    constructor; [apply close_has_body, E | constructor]. }
  destruct (flush st) as [|sc scs].
  - split; [simpl; lia|].
    destruct (PyStr.strip content) eqn:E; [right; reflexivity|].
    left. constructor; [|constructor]. reflexivity.
  - split; [simpl; lia | left; exact Hflush].
Qed.

Lemma step_counted st line :
  Forall counted (scenes st) -> Forall counted (scenes (step st line)).
Proof.
  intros H. unfold step.
  destruct (PyStr.is_empty _); [exact H|].
  destruct (is_scene_marker _); simpl.
  - destruct (has_text st); simpl; [|exact H].
    apply Forall_app. split; [exact H|].
    constructor; [reflexivity | constructor].
  - exact H.
Qed.

(** In every scene [parse_script_file] returns, [word_count] is the
    number of whitespace-separated words of [text], also in the
    single-scene fallback, which counts the words of the unstripped
    content. *)
Theorem parse_script_file_word_count (content : string) :
  Forall counted (parse_script_file content).
Proof.
  unfold parse_script_file.
  set (st := fold_left step (PyStr.split_on PyStr.newline content) initial).
  assert (Hst : Forall counted (scenes st)).
  { apply (fold_step_invariant (fun st => Forall counted (scenes st))).
    - apply step_counted.
    - constructor. }
  assert (Hflush : Forall counted (flush st)).
  { unfold flush. destruct (has_text st); [|exact Hst].
    apply Forall_app. split; [exact Hst|].
    constructor; [reflexivity | constructor]. }
  destruct (flush st) as [|sc scs]; [|exact Hflush].
  constructor; [|constructor].
  unfold counted. simpl. rewrite split_strip. reflexivity.
Qed.

(** *** Markers *)

Lemma step_scene_count st line :
  (length (scenes (step st line))
   <= length (scenes st) + Nat.b2n (is_scene_marker (PyStr.strip line)))%nat.
Proof.
  unfold step.
  destruct (PyStr.is_empty _); [lia|].
  destruct (is_scene_marker _); simpl.
  - destruct (has_text st); simpl; [rewrite length_app; simpl; lia | lia].
  - lia.
Qed.

Lemma fold_step_scene_count raw : forall st,
  (length (scenes (fold_left step raw st))
   <= length (scenes st)
      + length (List.filter is_scene_marker (map PyStr.strip raw)))%nat.
Proof.
  induction raw as [|l raw IH]; intros st; simpl; [lia|].
  pose proof (IH (step st l)) as H1.
  pose proof (step_scene_count st l) as H2.
  destruct (is_scene_marker (PyStr.strip l)); simpl in *; lia.
Qed.

(** A script yields at most one scene more than it has marker lines. *)
Theorem parse_script_file_scene_count (content : string) :
  (length (parse_script_file content) <= 1 + marker_lines content)%nat.
Proof.
  unfold parse_script_file, marker_lines, lines.
  pose proof (fold_step_scene_count (PyStr.split_on PyStr.newline content) initial) as H.
  set (st := fold_left step (PyStr.split_on PyStr.newline content) initial) in *.
  simpl in H.
  assert (Hflush : (length (flush st) <= S (length (scenes st)))%nat).
  { unfold flush. destruct (has_text st); [rewrite length_app; simpl; lia | lia]. }
  destruct (flush st) as [|sc scs]; simpl in *; lia.
Qed.

Lemma step_unmarked st line :
  is_scene_marker (PyStr.strip line) = false -> unmarked st -> unmarked (step st line).
Proof.
  intros Hline H. unfold step.
  destruct (PyStr.is_empty _); [exact H|].
  rewrite Hline. simpl. exact H.
Qed.

Lemma fold_step_unmarked raw : forall st,
  Forall (fun line => is_scene_marker (PyStr.strip line) = false) raw ->
  unmarked st -> unmarked (fold_left step raw st).
Proof.
  induction raw as [|l raw IH]; intros st Hraw H; simpl; [exact H|].
  apply Forall_cons in Hraw as [Hl Hraw].
  apply IH; [exact Hraw | apply step_unmarked; assumption].
Qed.

Lemma no_marker_lines raw :
  length (List.filter is_scene_marker (map PyStr.strip raw)) = 0%nat ->
  Forall (fun line => is_scene_marker (PyStr.strip line) = false) raw.
Proof.
  induction raw as [|l raw IH]; simpl; intros H; [constructor|].
  destruct (is_scene_marker (PyStr.strip l)) eqn:E; [discriminate|].
  constructor; [exact E | apply IH, H].
Qed.

(** A script without any marker line yields exactly one scene, numbered 1
    and with an empty [markers] list. *)
Theorem parse_script_file_unmarked (content : string) :
  marker_lines content = 0%nat ->
  exists scene, parse_script_file content = [scene] /\
    Scene.scene_number scene = 1%Z /\ Scene.markers scene = [].
Proof.
  unfold marker_lines, lines. intros H.
  apply no_marker_lines in H.
  unfold parse_script_file.
  destruct (fold_step_unmarked _ initial H) as (Hs & Hm & Hn); [repeat split|].
  unfold flush. rewrite Hs. simpl.
  destruct (has_text _).
  - eexists. split; [reflexivity|]. simpl. split; assumption.
  - eexists. split; [reflexivity|]. split; reflexivity.
Qed.

Lemma parse_script_file_unmarked_witness :
  exists scene, parse_script_file Examples.prose = [scene] /\
    Scene.scene_number scene = 1%Z /\ Scene.markers scene = [].
Proof.
  apply (parse_script_file_unmarked Examples.prose). vm_compute. reflexivity.
Defined.

Lemma close_marked st : markers_kept st -> marked (close st).
Proof. intros (_ & H & _). exact H. Qed.

Lemma snoc_markers_kept st :
  markers_kept st ->
  Forall marked (scenes st ++ [close st]) /\
  Forall (fun sc => Scene.markers sc <> []) (tail (scenes st ++ [close st])).
Proof.
  intros H. pose proof (close_marked st H) as Hc.
  destruct H as (Hs & Hm & Ht & Hne). split.
  - apply Forall_app. split; [exact Hs | constructor; [exact Hc | constructor]].
  - destruct (scenes st) as [|sc scs]; simpl in *; [constructor|].
    apply Forall_app. split; [exact Ht|].
    constructor; [|constructor]. apply Hne. discriminate.
Qed.

Lemma step_markers_kept st line : markers_kept st -> markers_kept (step st line).
Proof.
  intros H. unfold step.
  destruct (PyStr.is_empty _); [exact H|].
  destruct (is_scene_marker (PyStr.strip line)) eqn:E; simpl.
  - destruct (has_text st); simpl.
    + destruct (snoc_markers_kept st H) as [H1 H2].
      split; [exact H1|]. split; [constructor; [exact E | constructor]|].
      split; [exact H2 | discriminate].
    + destruct H as (Hs & Hm & Ht & Hne).
      split; [exact Hs|]. split; [|split; [exact Ht|]].
      * apply Forall_app. split; [exact Hm | constructor; [exact E | constructor]].
      * intros _ Heq. apply app_eq_nil in Heq as [_ Heq]. discriminate.
  - exact H.
Qed.

(** Every entry of a scene's [markers] is a line the patterns recognise,
    and every scene after the first has at least one marker. *)
Theorem parse_script_file_markers (content : string) :
  Forall marked (parse_script_file content) /\
  Forall (fun sc => Scene.markers sc <> []) (tail (parse_script_file content)).
Proof.
  unfold parse_script_file.
  set (st := fold_left step (PyStr.split_on PyStr.newline content) initial).
  assert (Hst : markers_kept st).
  { apply (fold_step_invariant markers_kept).
    - apply step_markers_kept.
    - repeat split; try constructor. intros H. contradiction. }
  assert (Hflush : Forall marked (flush st) /\
                   Forall (fun sc => Scene.markers sc <> []) (tail (flush st))).
  { unfold flush. destruct (has_text st); [apply snoc_markers_kept, Hst|].
    destruct Hst as (Hs & _ & Ht & _). split; assumption. }
  destruct (flush st) as [|sc scs]; [|exact Hflush].
  split; simpl; repeat constructor.
Qed.

Lemma parse_script_file_nonempty (content : string) :
  parse_script_file content <> [].
Proof.
  unfold parse_script_file. destruct (flush _); discriminate.
Qed.

End ScriptExtras.

(** ** Further properties of the transcript segmenter *)

Module TranscriptExtras.
Import Transcript TranscriptShape TranscriptClaims.

(** *** Grouping words into segments *)

Lemma last_word_closes words pre w :
  words = pre ++ [w] -> is_last_word words w = true.
Proof.
  intros ->. unfold is_last_word. rewrite last_snoc. apply word_eqb_refl.
Qed.

Lemma group_words_nonempty words d : forall rest pre segments current_segment current_start,
  words = pre ++ rest -> rest <> [] ->
  group_words words d rest segments current_segment current_start <> [].
Proof.
  induction rest as [|w rest IH]; intros pre sgs cur st Hw Hne; [contradiction|].
  simpl. destruct rest as [|w' rest'].
  - rewrite (last_word_closes words pre w Hw), orb_true_r. simpl.
    intros H. apply app_eq_nil in H as [_ H]. discriminate.
  - assert (Hw' : words = (pre ++ [w]) ++ w' :: rest').
    { rewrite <- app_assoc. exact Hw. }
    destruct (Qle_bool d _ || _); apply (IH (pre ++ [w])); (exact Hw' || discriminate).
Qed.

Lemma sliding_windows_ok segments :
  exists out, sliding_windows segments = ok out /\
              count_kind single out = length segments.
Proof.
  unfold sliding_windows.
  destruct (entries_range_counts segments (length segments) 0)
    as (groups & Hg & Hs & _); [lia|].
  rewrite Hg. simpl. eauto.
Qed.

Lemma count_kind_nonempty k out : (0 < count_kind k out)%nat -> out <> [].
Proof. intros H ->. unfold count_kind in H. simpl in H. lia. Qed.

Lemma process_nonempty (transcript_data : TranscriptData) out :
  process_transcript_segments transcript_data = ok out -> out <> [].
Proof.
  unfold process_transcript_segments.
  destruct (td_segments transcript_data) as [|seg segs].
  - destruct (td_words transcript_data) as [|w ws]; [discriminate|].
    set (base := create_segments_from_words (w :: ws) default_segment_duration).
    assert (Hbase : base <> []).
    { apply (group_words_nonempty (w :: ws) default_segment_duration
               (w :: ws) [] [] [] 0 eq_refl). discriminate. }
    destruct (sliding_windows_ok base) as (out' & -> & Hcount).
    intros [= <-]. apply (count_kind_nonempty single). rewrite Hcount.
    destruct base; [contradiction | simpl; lia].
  - destruct (sliding_windows_ok (seg :: segs)) as (out' & -> & Hcount).
    intros [= <-]. apply (count_kind_nonempty single). rewrite Hcount. simpl. lia.
Qed.

(** [process_transcript_segments] fails exactly when the transcript has
    neither segments nor words, with the message "No transcript
    segments or words available"; in every other case it returns a
    non-empty list of candidates. *)
Theorem process_transcript_segments_result (transcript_data : TranscriptData) :
  match td_segments transcript_data, td_words transcript_data with
  | [], [] =>
      process_transcript_segments transcript_data
      = raise (Exception "No transcript segments or words available")
  | _, _ =>
      exists out, process_transcript_segments transcript_data = ok out /\ out <> []
  end.
Proof.
  unfold process_transcript_segments.
  destruct (td_segments transcript_data) as [|seg segs].
  - destruct (td_words transcript_data) as [|w ws]; [reflexivity|].
    destruct (sliding_windows_ok
                (create_segments_from_words (w :: ws) default_segment_duration))
      as (out & Hout & Hcount).
    exists out. split; [exact Hout|].
    apply (count_kind_nonempty single). rewrite Hcount.
    pose proof (group_words_nonempty (w :: ws) default_segment_duration
                  (w :: ws) [] [] [] 0 eq_refl ltac:(discriminate)) as Hne.
    unfold create_segments_from_words.
    destruct (group_words _ _ _ _ _ _); [contradiction | simpl; lia].
  - destruct (sliding_windows_ok (seg :: segs)) as (out & Hout & Hcount).
    exists out. split; [exact Hout|].
    apply (count_kind_nonempty single). rewrite Hcount. simpl. lia.
Qed.

(** *** No word is lost *)

Lemma string_app_assoc (a b c : string) : ((a ++ b) ++ c = a ++ (b ++ c))%string.
Proof.
  induction a as [|x a IH]; [reflexivity|].
  change (String x ((a ++ b) ++ c) = String x (a ++ (b ++ c)))%string.
  f_equal. exact IH.
Qed.

Lemma join_single sep p : PyStr.join sep [p] = p.
Proof. reflexivity. Qed.

Lemma join_cons sep p rest :
  rest <> [] -> PyStr.join sep (p :: rest) = (p ++ sep ++ PyStr.join sep rest)%string.
Proof. destruct rest; [contradiction | reflexivity]. Qed.

Lemma join_app sep (l1 l2 : list string) :
  l1 <> [] -> l2 <> [] ->
  PyStr.join sep (l1 ++ l2)
  = (PyStr.join sep l1 ++ sep ++ PyStr.join sep l2)%string.
Proof.
  intros H1 H2. induction l1 as [|p l1 IH]; [contradiction|].
  destruct l1 as [|q l1].
  - simpl app. rewrite join_cons by exact H2. reflexivity.
  - change ((p :: q :: l1) ++ l2) with (p :: ((q :: l1) ++ l2)).
    rewrite join_cons by discriminate.
    rewrite IH by discriminate.
    rewrite (join_cons sep p (q :: l1)) by discriminate.
    rewrite !string_app_assoc. reflexivity.
Qed.

Lemma join_regroup sep (A x y : list string) :
  x <> [] -> y <> [] ->
  PyStr.join sep (A ++ [PyStr.join sep (x ++ y)])
  = PyStr.join sep ((A ++ [PyStr.join sep x]) ++ [PyStr.join sep y]).
Proof.
  intros Hx Hy. rewrite (join_app sep x y Hx Hy).
  destruct A as [|a A].
  - reflexivity.
  - rewrite (join_app sep (a :: A) [_]) by discriminate.
    rewrite (join_app sep ((a :: A) ++ [_]) [_]);
      [|intros H; apply app_eq_nil in H as [H _]; discriminate | discriminate].
    rewrite (join_app sep (a :: A) [_]) by discriminate.
    rewrite !join_single, !string_app_assoc. reflexivity.
Qed.

Lemma closed_text current_start word current_segment :
  map BaseSegment.text [close_group current_start word current_segment]
  = [PyStr.join " " (map Word.word current_segment)].
Proof. reflexivity. Qed.

Lemma pending_piece (l : list Word.t) :
  l <> [] ->
  match l with
  | [] => []
  | w :: k => [PyStr.join " " (map Word.word (w :: k))]
  end = [PyStr.join " " (map Word.word l)].
Proof. destruct l; [contradiction | reflexivity]. Qed.

(** What the loop has written and has still to write, as one list of
    pieces. *)
Lemma group_words_text words d : forall rest pre segments current_segment current_start,
  words = pre ++ rest ->
  (rest = [] -> current_segment = []) ->
  spoken_text (group_words words d rest segments current_segment current_start)
  = PyStr.join " "
      (map BaseSegment.text segments ++
       match current_segment ++ rest with
       | [] => []
       | pending => [PyStr.join " " (map Word.word pending)]
       end).
Proof.
  unfold spoken_text.
  induction rest as [|w rest IH]; intros pre sgs cur st Hw Hcur.
  - rewrite (Hcur eq_refl). simpl. rewrite app_nil_r. reflexivity.
  - simpl group_words.
    assert (Hw' : words = (pre ++ [w]) ++ rest).
    { rewrite <- app_assoc. exact Hw. }
    assert (Hpending : cur ++ w :: rest = (cur ++ [w]) ++ rest).
    { rewrite <- app_assoc. reflexivity. }
    assert (Hne : cur ++ [w] <> []).
    { intros H. apply app_eq_nil in H as [_ H]. discriminate. }
    destruct (Qle_bool d _ || is_last_word words w) eqn:E.
    + rewrite (IH (pre ++ [w]) _ [] _ Hw' (fun _ => eq_refl)).
      rewrite map_app, closed_text.
      change ([] ++ rest) with rest.
      rewrite Hpending.
      destruct rest as [|w' rest'].
      * rewrite !app_nil_r. rewrite (pending_piece (cur ++ [w]) Hne). reflexivity.
      * rewrite (pending_piece ((cur ++ [w]) ++ w' :: rest'));
          [|intros H; apply app_eq_nil in H as [_ H]; discriminate].
        rewrite (map_app Word.word (cur ++ [w]) (w' :: rest')).
        rewrite join_regroup; [reflexivity | | discriminate].
        intros H. apply map_eq_nil in H. contradiction.
    + assert (Hrest : rest <> []).
      { intros ->. rewrite (last_word_closes words pre w Hw), orb_true_r in E.
        discriminate. }
      rewrite (IH (pre ++ [w]) _ (cur ++ [w]) _ Hw');
        [|intros H; contradiction].
      rewrite Hpending. reflexivity.
Qed.

(** The texts of the synthesized segments, joined by spaces, are the
    words of the transcript joined by spaces: no word is dropped,
    repeated or moved. *)
Theorem create_segments_keeps_words (words : list Word.t) (d : Q) :
  spoken_text (create_segments_from_words words d)
  = PyStr.join " " (map Word.word words).
Proof.
  unfold create_segments_from_words.
  rewrite (group_words_text words d words [] [] [] 0 eq_refl).
  - simpl. destruct words; reflexivity.
  - intros ->. reflexivity.
Qed.

End TranscriptExtras.

(** ** The transcript segmenter on well-formed transcripts *)

Module TranscriptShapeFacts.
Import Transcript TranscriptShape TranscriptClaims.

Lemma end_monotone (l : list BaseSegment.t) : chronological l ->
  forall k i a b, l !! i = Some a -> l !! (i + k)%nat = Some b ->
                  BaseSegment.end_ a <= BaseSegment.end_ b.
Proof.
  intros [Hplaus Hadj]. induction k as [|k IH]; intros i a b Ha Hb.
  - rewrite Nat.add_0_r in Hb. assert (a = b) by congruence. subst. apply Qle_refl.
  - assert (Hlt : (i + k < length l)%nat).
    { apply lookup_lt_Some in Hb. lia. }
    destruct (lookup_lt_is_Some_2 l (i + k) Hlt) as [c Hc].
    rewrite Nat.add_succ_r in Hb.
    pose proof (IH i a c Ha Hc) as H1.
    pose proof (adjacent_lookup _ _ Hadj (i + k)%nat c b Hc Hb) as H2.
    destruct (Forall_lookup_1 _ _ _ _ Hplaus Hb) as [H3 _].
    cbv beta in H2. lra.
Qed.

Lemma slice_nonempty segments i seg :
  segments !! i = Some seg -> slice segments i <> [].
Proof.
  intros H. unfold slice. rewrite <- (Nat.add_0_r i), <- lookup_drop in H.
  destruct (drop i segments); [discriminate | discriminate].
Qed.

Lemma entries_at_plausible segments i es :
  chronological segments ->
  entries_at segments i = ok es -> Forall Matcher.plausible_segment es.
Proof.
  intros Hchron. pose proof Hchron as [Hplaus _]. unfold entries_at.
  destruct (index segments i) as [e|seg] eqn:Eseg; [discriminate|]. simpl.
  apply MatcherFacts.index_ok in Eseg.
  destruct (Forall_lookup_1 _ _ _ _ Hplaus Eseg) as [Hdur Hconf].
  assert (Hsingle : Matcher.plausible_segment (single_entry i seg)).
  { split; [exact Hdur | exact Hconf]. }
  destruct (i + window_size <=? length segments)%nat.
  - destruct (index segments (i + window_size - 1)) as [e|lst] eqn:Elst; [discriminate|].
    simpl. intros [= <-].
    apply MatcherFacts.index_ok in Elst.
    constructor; [exact Hsingle|]. constructor; [|constructor].
    split; simpl.
    + replace (i + window_size - 1)%nat with (i + 2)%nat in Elst
        by (unfold window_size; lia).
      pose proof (end_monotone segments Hchron 2 i seg lst Eseg Elst). lra.
    + apply (ValidatorExtras.mean_bounds 0 1).
      * intros H. apply map_eq_nil in H. exact (slice_nonempty _ _ _ Eseg H).
      * apply Forall_map. unfold slice. apply Forall_take, Forall_drop.
        eapply Forall_impl; [exact Hplaus|]. intros b [_ Hb]. exact Hb.
  - intros [= <-]. constructor; [exact Hsingle | constructor].
Qed.

End TranscriptShapeFacts.

Module TranscriptShapeClaims.
Import Transcript TranscriptShape TranscriptClaims TranscriptShapeFacts.

(** When the supplied segments are in time order, each with
    [start <= end] and a confidence in [0, 1], every candidate
    [process_transcript_segments] returns, single or window, has
    [start_time <= end_time] and a confidence in [0, 1]. *)
Theorem process_transcript_segments_plausible (transcript_data : TranscriptData) :
  td_segments transcript_data <> [] ->
  chronological (td_segments transcript_data) ->
  exists out, process_transcript_segments transcript_data = ok out /\
              Forall Matcher.plausible_segment out.
Proof.
  intros Hne Hchron. unfold process_transcript_segments.
  destruct (td_segments transcript_data) as [|seg segs] eqn:E; [contradiction|].
  unfold sliding_windows.
  destruct (entries_range_counts (seg :: segs) (length (seg :: segs)) 0)
    as (groups & Hg & _); [lia|].
  rewrite Hg. simpl bind. exists (concat groups). split; [reflexivity|].
  apply List.Forall_concat.
  eapply MatcherFacts.map_result_Forall; [|exact Hg].
  intros i es. apply entries_at_plausible, Hchron.
Qed.

Lemma process_transcript_segments_plausible_witness :
  exists out, process_transcript_segments Examples.four_segments = ok out /\
              Forall Matcher.plausible_segment out.
Proof.
  apply (process_transcript_segments_plausible Examples.four_segments).
  - simpl. discriminate.
  - split.
    + repeat (match goal with |- Forall _ _ => constructor end);
        (split; [apply Qle_bool_iff; reflexivity
                | apply MatcherClaims.in_unit_checked; reflexivity]).
    + simpl. repeat split; apply Qle_bool_iff; reflexivity.
Defined.

Lemma group_words_long_or_final words d :
  forall rest segments current_segment current_start,
    Forall (long_or_final words d) segments ->
    Forall (long_or_final words d)
           (group_words words d rest segments current_segment current_start).
Proof.
  induction rest as [|w rest IH]; intros sgs cur st H; [exact H|].
  simpl.
  destruct (Qle_bool d _ || is_last_word words w) eqn:E.
  - apply IH. apply Forall_app. split; [exact H|].
    constructor; [|constructor].
    apply orb_true_iff in E as [E|E].
    + left. apply Qle_bool_iff in E. exact E.
    + right. unfold is_last_word in E.
      destruct (last words) as [l|]; [|discriminate].
      exists l. split; [reflexivity|]. simpl.
      unfold Word.eqb in E.
      apply andb_true_iff in E as [E _]. apply andb_true_iff in E as [_ E].
      apply Qeq_bool_iff in E. exact E.
  - apply IH, H.
Qed.

(** Every synthesized segment spans at least [segment_duration]
    seconds, or ends where the last word of the transcript ends. *)
Theorem create_segments_long_or_final (words : list Word.t) (d : Q) :
  Forall (long_or_final words d) (create_segments_from_words words d).
Proof. apply group_words_long_or_final. constructor. Qed.

End TranscriptShapeClaims.

(** ** Further properties of the matcher *)

Module MatcherExtras.
Import Matcher MatcherFacts MatcherShape.

(** *** The monadic maps *)

Lemma map_result_length {A B} (f : A -> result B) l bs :
  map_result f l = ok bs -> length bs = length l.
Proof.
  revert bs. induction l as [|a l IH]; intros bs; simpl.
  - intros [= <-]. reflexivity.
  - destruct (f a) as [e|b]; [discriminate|]. simpl.
    destruct (map_result f l) as [e|bs']; [discriminate|]. simpl.
    intros [= <-]. simpl. rewrite (IH bs' eq_refl). reflexivity.
Qed.

Lemma map_result_ok {A B} (f : A -> result B) l :
  Forall (fun a => exists b, f a = ok b) l -> exists bs, map_result f l = ok bs.
Proof.
  induction 1 as [|a l [b Hb] _ [bs Hbs]]; simpl.
  - eexists. reflexivity.
  - rewrite Hb. simpl. rewrite Hbs. simpl. eexists. reflexivity.
Qed.

Lemma mapi_result_Forall2 {A B} (f : nat -> A -> result B) (R : A -> B -> Prop) l :
  forall i0 bs,
    (forall j a b, f j a = ok b -> R a b) ->
    mapi_result f i0 l = ok bs -> Forall2 R l bs.
Proof.
  induction l as [|a l IH]; intros i0 bs Hf; simpl.
  - intros [= <-]. constructor.
  - destruct (f i0 a) as [e|b] eqn:Ea; [discriminate|]. simpl.
    destruct (mapi_result f (S i0) l) as [e|bs'] eqn:El; [discriminate|]. simpl.
    intros [= <-]. constructor; [eapply Hf, Ea | eapply IH; eassumption].
Qed.

Lemma mapi_result_lookup {A B} (f : nat -> A -> result B) l :
  forall i0 bs j b,
    mapi_result f i0 l = ok bs -> bs !! j = Some b ->
    exists a, l !! j = Some a /\ f (i0 + j)%nat a = ok b.
Proof.
  induction l as [|a l IH]; intros i0 bs j b; simpl.
  - intros [= <-]. discriminate.
  - destruct (f i0 a) as [e|b0] eqn:Ea; [discriminate|]. simpl.
    destruct (mapi_result f (S i0) l) as [e|bs'] eqn:El; [discriminate|]. simpl.
    intros [= <-] Hj. destruct j as [|j]; simpl in Hj.
    + injection Hj as <-. exists a. rewrite Nat.add_0_r. split; [reflexivity | exact Ea].
    + destruct (IH (S i0) bs' j b El Hj) as (a' & Ha' & Hf).
      exists a'. split; [exact Ha'|]. rewrite Nat.add_succ_r. exact Hf.
Qed.

Lemma mapi_result_ok {A B} (f : nat -> A -> result B) l :
  forall i0,
    (forall j a, l !! j = Some a -> exists b, f (i0 + j)%nat a = ok b) ->
    exists bs, mapi_result f i0 l = ok bs.
Proof.
  induction l as [|a l IH]; intros i0 Hf; simpl.
  - eexists. reflexivity.
  - destruct (Hf 0%nat a eq_refl) as [b Hb]. rewrite Nat.add_0_r in Hb.
    rewrite Hb. simpl.
    destruct (IH (S i0)) as [bs Hbs].
    + intros j a' Hj. destruct (Hf (S j) a' Hj) as [b' Hb'].
      exists b'. rewrite Nat.add_succ_r in Hb'. exact Hb'.
    + rewrite Hbs. simpl. eexists. reflexivity.
Qed.

(** *** One alignment per scene *)

Lemma match_scene_fresh scenes segments m i scene a :
  match_scene scenes segments m i scene = ok a ->
  scene_number a = Scene.scene_number scene /\ fresh a.
Proof.
  unfold match_scene.
  destruct (index m i) as [e|row]; [discriminate|]. simpl.
  destruct (index (top_indices row) 0) as [e|best]; [discriminate|]. simpl.
  destruct (index segments best) as [e|seg]; [discriminate|]. simpl.
  destruct (index row best) as [e|c]; [discriminate|]. simpl.
  destruct (compute_length_similarity scene seg) as [e|l]; [discriminate|]. simpl.
  destruct (map_result _ _) as [e|alts] eqn:Ealts; [discriminate|]. simpl.
  intros [= <-]. split; [reflexivity|]. repeat split. simpl.
  rewrite (map_result_length _ _ _ Ealts), length_take. lia.
Qed.

Lemma perform_length
    (cosine_similarity : list (list Q) -> list (list Q) -> result (list (list Q)))
    scenes segments scene_embeddings segment_embeddings alignments :
  perform_semantic_matching cosine_similarity scenes segments
    scene_embeddings segment_embeddings = ok alignments ->
  length alignments = length scenes.
Proof.
  unfold perform_semantic_matching.
  destruct (cosine_similarity _ _) as [e|m]; [discriminate|]. simpl.
  intros H. symmetry. eapply Forall2_length.
  eapply (mapi_result_Forall2 _ (fun _ _ => True)); [|exact H]. trivial.
Qed.

(** When [perform_semantic_matching] returns, it returns one alignment
    per scene, in scene order and with the scene's number; every
    alignment has at most two alternates, a confidence equal to the
    weighted sum of its stored factors, and none of the refiner's three
    keys. *)
Theorem matcher_one_per_scene
    (cosine_similarity : list (list Q) -> list (list Q) -> result (list (list Q)))
    (scenes : list Scene.t) (segments : list Segment.t)
    (scene_embeddings segment_embeddings : list (list Q))
    (alignments : list Alignment) :
  perform_semantic_matching cosine_similarity scenes segments
    scene_embeddings segment_embeddings = ok alignments ->
  length alignments = length scenes /\
  map scene_number alignments = map Scene.scene_number scenes /\
  Forall fresh alignments.
Proof.
  unfold perform_semantic_matching.
  destruct (cosine_similarity _ _) as [e|m]; [discriminate|]. simpl.
  intros H.
  assert (H2 : Forall2 (fun scene a => scene_number a = Scene.scene_number scene /\ fresh a)
                       scenes alignments).
  { eapply mapi_result_Forall2; [|exact H].
    intros j scene a. apply match_scene_fresh. }
  clear H. induction H2 as [|scene a scenes alignments [Hn Hf] _ (IH1 & IH2 & IH3)].
  - repeat split. constructor.
  - simpl. rewrite IH1, IH2, Hn. repeat split. constructor; assumption.
Qed.

(** *** Ranking *)

Lemma insert_index_perm row i sorted : insert_index row i sorted ≡ₚ i :: sorted.
Proof.
  induction sorted as [|j sorted IH]; simpl; [reflexivity|].
  destruct (Qle_bool _ _); [reflexivity|].
  rewrite IH. apply Permutation_swap.
Qed.

Lemma argsort_perm row : argsort row ≡ₚ seq 0 (length row).
Proof.
  unfold argsort. induction (seq 0 (length row)) as [|i l IH]; simpl; [reflexivity|].
  rewrite insert_index_perm, IH. reflexivity.
Qed.

Lemma insert_index_sorted row i sorted :
  StronglySorted (ascending row) sorted ->
  StronglySorted (ascending row) (insert_index row i sorted).
Proof.
  induction 1 as [|j sorted Hs IH Hj]; simpl.
  - constructor; constructor.
  - fold (value row i). fold (value row j).
    destruct (Qle_bool (value row i) (value row j)) eqn:E.
    + apply Qle_bool_iff in E.
      constructor; [constructor; assumption|].
      constructor; [exact E|].
      eapply Forall_impl; [exact Hj|]. intros k Hk. unfold ascending in *. lra.
    + apply not_true_iff_false in E. rewrite Qle_bool_iff in E.
      constructor; [exact IH|].
      rewrite insert_index_perm. constructor; [|exact Hj].
      unfold ascending. lra.
Qed.

Lemma argsort_sorted row : StronglySorted (ascending row) (argsort row).
Proof.
  unfold argsort. induction (seq 0 (length row)) as [|i l IH]; simpl.
  - constructor.
  - apply insert_index_sorted, IH.
Qed.

Lemma sorted_last_greatest {A} (R : A -> A -> Prop) (l : list A) (x : A) :
  (forall y, R y y) -> StronglySorted R l ->
  head (rev l) = Some x -> Forall (fun y => R y x) l.
Proof.
  intros Hrefl Hs. induction Hs as [|a l Hs IH Ha]; intros Hx; [constructor|].
  simpl in Hx. destruct (rev l) as [|z k] eqn:Er.
  - simpl in Hx. injection Hx as <-.
    assert (l = []) as ->.
    { apply (f_equal (@rev A)) in Er. rewrite rev_involutive in Er. exact Er. }
    constructor; [apply Hrefl | constructor].
  - simpl in Hx. injection Hx as <-.
    assert (Hin : In z l).
    { apply in_rev. rewrite Er. left. reflexivity. }
    constructor; [|apply IH; reflexivity].
    rewrite Forall_forall in Ha. apply Ha, list_elem_of_In, Hin.
Qed.

Lemma top_is_greatest row best c :
  index (top_indices row) 0 = ok best -> index row best = ok c ->
  Forall (fun q => q <= c) row.
Proof.
  intros Hbest Hc. apply index_ok in Hbest. apply index_ok in Hc.
  unfold top_indices in Hbest. rewrite lookup_take_lt in Hbest by lia.
  rewrite <- head_lookup in Hbest.
  pose proof (sorted_last_greatest (ascending row) (argsort row) best
                (fun y => Qle_refl _) (argsort_sorted row) Hbest) as Hall.
  rewrite (argsort_perm row) in Hall.
  apply Forall_lookup_2. intros j q Hq.
  assert (Hj : (j < length row)%nat) by (eapply lookup_lt_Some, Hq).
  rewrite Forall_forall in Hall.
  assert (Hasc : ascending row j best).
  { apply Hall, list_elem_of_In, in_seq. lia. }
  unfold ascending, value in Hasc. rewrite Hq, Hc in Hasc. exact Hasc.
Qed.

Lemma in_take {A} (x : A) n l : In x (take n l) -> In x l.
Proof.
  revert l. induction n as [|n IH]; intros l H; [contradiction|].
  destruct l as [|y l]; [contradiction|].
  destruct H as [-> | H]; [left; reflexivity | right; apply IH, H].
Qed.

Lemma argsort_nodup row : List.NoDup (argsort row).
Proof.
  apply (Permutation_NoDup (l := seq 0 (length row))).
  - symmetry. apply argsort_perm.
  - apply seq_NoDup.
Qed.

(** The alternates are taken from positions other than the best one. *)
Lemma alternates_elsewhere row best idx :
  top_indices row !! 0%nat = Some best ->
  In idx (take 2 (drop 1 (top_indices row))) -> idx <> best.
Proof.
  unfold top_indices. intros Hbest Hidx.
  pose proof (List.NoDup_rev (argsort_nodup row)) as Hnodup.
  destruct (rev (argsort row)) as [|b ranked]; [discriminate|].
  simpl in Hbest. injection Hbest as ->.
  change (take 5 (best :: ranked)) with (best :: take 4 ranked) in Hidx.
  change (drop 1 (best :: take 4 ranked)) with (take 4 ranked) in Hidx.
  apply in_take, in_take in Hidx.
  apply List.NoDup_cons_iff in Hnodup as [Hnotin _].
  intros ->. contradiction.
Qed.

Lemma map_result_Forall_in {A B} (f : A -> result B) (P : B -> Prop) l bs :
  (forall a b, In a l -> f a = ok b -> P b) ->
  map_result f l = ok bs -> Forall P bs.
Proof.
  revert bs. induction l as [|a l IH]; intros bs Hf; simpl.
  - intros [= <-]. constructor.
  - destruct (f a) as [e|b] eqn:Ea; [discriminate|]. simpl.
    destruct (map_result f l) as [e|bs'] eqn:El; [discriminate|]. simpl.
    intros [= <-]. constructor.
    + apply (Hf a b); [left; reflexivity | exact Ea].
    + apply IH; [|reflexivity]. intros a' b' Hin. apply Hf. right. exact Hin.
Qed.

Lemma match_scene_best m scenes segments i scene a :
  match_scene scenes segments m i scene = ok a ->
  exists row, m !! i = Some row /\ best_match segments row a.
Proof.
  unfold match_scene.
  destruct (index m i) as [e|row] eqn:Erow; [discriminate|]. simpl.
  destruct (index (top_indices row) 0) as [e|best] eqn:Ebest; [discriminate|]. simpl.
  destruct (index segments best) as [e|seg] eqn:Eseg; [discriminate|]. simpl.
  destruct (index row best) as [e|c] eqn:Ec; [discriminate|]. simpl.
  destruct (compute_length_similarity scene seg) as [e|l]; [discriminate|]. simpl.
  destruct (map_result _ _) as [e|alts] eqn:Ealts; [discriminate|]. simpl.
  intros [= <-]. exists row. split; [apply index_ok, Erow|].
  pose proof (top_is_greatest row best c Ebest Ec) as Hrow.
  exists best. simpl. split; [|split; [exact Hrow|]].
  - exists seg. split; [apply index_ok, Eseg|]. split; [apply index_ok, Ec|].
    repeat split.
  - eapply map_result_Forall_in; [|exact Ealts].
    intros idx alt Hidx. unfold alternative.
    destruct (index segments idx) as [e|seg'] eqn:Eseg'; [discriminate|]. simpl.
    destruct (index row idx) as [e|c'] eqn:Ec'; [discriminate|]. simpl.
    intros [= <-]. simpl. exists idx.
    split; [exact (alternates_elsewhere row best idx (index_ok _ _ _ Ebest) Hidx)|].
    split.
    + exists seg'. split; [apply index_ok, Eseg'|]. split; [apply index_ok, Ec'|].
      repeat split.
    + exact (index_Forall (fun q => q <= c) row idx c' Hrow Ec').
Qed.

(** The primary match of every scene is the candidate segment of
    greatest similarity: at some position the scene's row of the
    similarity matrix holds the stored [semantic_similarity] and the
    candidate list holds the segment whose id, start and end the
    alignment carries, and no entry of the row is larger. Each
    alternate is the candidate at another position, with that position's
    similarity as its confidence, which is not above the primary's. *)
Theorem matcher_picks_greatest
    (cosine_similarity : list (list Q) -> list (list Q) -> result (list (list Q)))
    (scenes : list Scene.t) (segments : list Segment.t)
    (scene_embeddings segment_embeddings : list (list Q))
    (m : list (list Q)) (alignments : list Alignment) (i : nat) (a : Alignment) :
  cosine_similarity scene_embeddings segment_embeddings = ok m ->
  perform_semantic_matching cosine_similarity scenes segments
    scene_embeddings segment_embeddings = ok alignments ->
  alignments !! i = Some a ->
  exists row, m !! i = Some row /\ best_match segments row a.
Proof.
  intros Hcos. unfold perform_semantic_matching. rewrite Hcos. simpl.
  intros Hmap Ha.
  destruct (mapi_result_lookup _ _ _ _ _ _ Hmap Ha) as (scene & _ & Hscene).
  simpl in Hscene. eapply match_scene_best, Hscene.
Qed.

Lemma matcher_picks_greatest_witness :
  exists m alignments a,
    dot_similarity Examples.scene_vectors Examples.segment_vectors = ok m /\
    perform_semantic_matching dot_similarity Examples.kitchen_scenes
      Examples.three_candidates Examples.scene_vectors Examples.segment_vectors
    = ok alignments /\
    alignments !! 1%nat = Some a /\
    matched_segment_id a = "single_1"%string /\
    exists row, m !! 1%nat = Some row /\
                best_match Examples.three_candidates row a.
Proof.
  eexists _, _, _.
  split; [lazy; reflexivity|]. split; [lazy; reflexivity|].
  split; [lazy; reflexivity|]. split; [reflexivity|].
  eapply (matcher_picks_greatest dot_similarity Examples.kitchen_scenes
            Examples.three_candidates Examples.scene_vectors
            Examples.segment_vectors);
    lazy; reflexivity.
Defined.

Lemma matcher_one_per_scene_witness :
  exists alignments,
    perform_semantic_matching dot_similarity Examples.kitchen_scenes
      Examples.three_candidates Examples.scene_vectors Examples.segment_vectors
    = ok alignments /\
    length alignments = length Examples.kitchen_scenes /\
    map scene_number alignments = map Scene.scene_number Examples.kitchen_scenes /\
    Forall fresh alignments.
Proof.
  eexists. split; [lazy; reflexivity|].
  apply (matcher_one_per_scene dot_similarity Examples.kitchen_scenes
           Examples.three_candidates Examples.scene_vectors Examples.segment_vectors).
  lazy. reflexivity.
Defined.

(** *** Candidates *)

Lemma index_In {A} (l : list A) i a : index l i = ok a -> In a l.
Proof.
  intros H. apply index_ok in H.
  apply list_elem_of_In. eapply list_elem_of_lookup_2, H.
Qed.

Lemma match_scene_from_candidates m scenes segments i scene a :
  match_scene scenes segments m i scene = ok a -> from_candidates segments a.
Proof.
  unfold match_scene.
  destruct (index m i) as [e|row]; [discriminate|]. simpl.
  destruct (index (top_indices row) 0) as [e|best]; [discriminate|]. simpl.
  destruct (index segments best) as [e|seg] eqn:Eseg; [discriminate|]. simpl.
  destruct (index row best) as [e|c]; [discriminate|]. simpl.
  destruct (compute_length_similarity scene seg) as [e|l]; [discriminate|]. simpl.
  destruct (map_result _ _) as [e|alts] eqn:Ealts; [discriminate|]. simpl.
  intros [= <-]. split; simpl.
  - exists seg. split; [eapply index_In, Eseg|]. repeat split.
  - eapply map_result_Forall; [|exact Ealts].
    intros idx alt. unfold alternative.
    destruct (index segments idx) as [e|s'] eqn:Es; [discriminate|]. simpl.
    destruct (index row idx) as [e|c']; [discriminate|]. simpl.
    intros [= <-]. exists s'. split; [eapply index_In, Es|]. repeat split.
Qed.

(** Every alignment the matcher returns carries the id, start and end
    of one of the candidate segments and that segment's confidence as
    its [transcript_confidence]; each alternate carries the id, start
    and end of a candidate segment as well. *)
Theorem matcher_spans_from_candidates
    (cosine_similarity : list (list Q) -> list (list Q) -> result (list (list Q)))
    (scenes : list Scene.t) (segments : list Segment.t)
    (scene_embeddings segment_embeddings : list (list Q))
    (alignments : list Alignment) :
  perform_semantic_matching cosine_similarity scenes segments
    scene_embeddings segment_embeddings = ok alignments ->
  Forall (from_candidates segments) alignments.
Proof.
  unfold perform_semantic_matching.
  destruct (cosine_similarity _ _) as [e|m]; [discriminate|]. simpl.
  intros H. eapply mapi_result_Forall; [|exact H].
  intros j scene a _ Ha. eapply match_scene_from_candidates, Ha.
Qed.

Lemma matcher_spans_from_candidates_witness :
  exists alignments,
    perform_semantic_matching dot_similarity Examples.kitchen_scenes
      Examples.three_candidates Examples.scene_vectors Examples.segment_vectors
    = ok alignments /\
    Forall (from_candidates Examples.three_candidates) alignments.
Proof.
  eexists. split; [lazy; reflexivity|].
  apply (matcher_spans_from_candidates dot_similarity Examples.kitchen_scenes
           Examples.three_candidates Examples.scene_vectors Examples.segment_vectors).
  lazy. reflexivity.
Defined.

(** *** Failure and success *)

Lemma estimated_words_sign (segment : Segment.t) :
  ((Segment.end_time segment - Segment.start_time segment) / 60 * 150 < 0
   <-> Segment.end_time segment < Segment.start_time segment) /\
  (0 <= (Segment.end_time segment - Segment.start_time segment) / 60 * 150
   <-> Segment.start_time segment <= Segment.end_time segment).
Proof.
  unfold Qdiv. change (/ 60) with (1 # 60).
  generalize (Segment.end_time segment) (Segment.start_time segment).
  intros e b. split; split; intros H; lra.
Qed.

Lemma length_similarity_ok scene segment :
  Segment.start_time segment <= Segment.end_time segment ->
  exists similarity, compute_length_similarity scene segment = ok similarity.
Proof.
  intros Hdur. destruct (estimated_words_sign segment) as [_ Hpos].
  apply Hpos in Hdur. unfold compute_length_similarity.
  set (a := inject_Z (Z.of_nat (Scene.word_count scene))).
  set (b := (Segment.end_time segment - Segment.start_time segment) / 60 * 150) in *.
  assert (Ha : 0 <= a) by apply Qnat_nonneg.
  destruct (Qeq_bool b 0) eqn:E0; [eexists; reflexivity|].
  apply Qeq_bool_neq in E0.
  assert (Hmax : ~ py_max a b == 0).
  { unfold py_max.
    destruct (Qltb a b) eqn:Eab; [apply Qltb_lt in Eab | apply Qltb_ge in Eab]; lra. }
  destruct (Qeq_bool (py_max a b) 0) eqn:Em.
  - apply Qeq_bool_iff in Em. contradiction.
  - eexists. reflexivity.
Qed.

(** [compute_length_similarity] raises [ZeroDivisionError] exactly when
    the scene has no word and the segment ends before it starts; in
    every other case it returns a number. *)
Theorem compute_length_similarity_failure (scene : Scene.t) (segment : Segment.t) :
  (compute_length_similarity scene segment = raise ZeroDivisionError
   <-> Scene.word_count scene = 0%nat /\
       Segment.end_time segment < Segment.start_time segment) /\
  (compute_length_similarity scene segment <> raise ZeroDivisionError ->
   exists similarity, compute_length_similarity scene segment = ok similarity).
Proof.
  destruct (estimated_words_sign segment) as [Hneg Hpos].
  unfold compute_length_similarity.
  set (a := inject_Z (Z.of_nat (Scene.word_count scene))).
  set (b := (Segment.end_time segment - Segment.start_time segment) / 60 * 150) in *.
  assert (Ha : 0 <= a) by apply Qnat_nonneg.
  assert (Ha0 : a == 0 <-> Scene.word_count scene = 0%nat).
  { unfold a. split.
    - intros H. unfold Qeq, inject_Z in H. simpl in H. lia.
    - intros ->. reflexivity. }
  destruct (Qeq_bool b 0) eqn:E0.
  - apply Qeq_bool_iff in E0. split.
    + split; [discriminate|]. intros [_ H]. apply Hneg in H. lra.
    + intros _. eexists. reflexivity.
  - apply Qeq_bool_neq in E0.
    unfold py_max.
    destruct (Qltb a b) eqn:Eab; [apply Qltb_lt in Eab | apply Qltb_ge in Eab].
    + assert (E : Qeq_bool b 0 = false).
      { apply not_true_iff_false. rewrite Qeq_bool_iff. exact E0. }
      rewrite E. split.
      * split; [discriminate|]. intros [H0 H]. apply Ha0 in H0. apply Hneg in H. lra.
      * intros _. eexists. reflexivity.
    + destruct (Qeq_bool a 0) eqn:Ea.
      * apply Qeq_bool_iff in Ea. split.
        -- split; [intros _ | reflexivity].
           split; [apply Ha0, Ea | apply Hneg; lra].
        -- intros H. contradiction.
      * apply Qeq_bool_neq in Ea. split.
        -- split; [discriminate|]. intros [H0 _]. apply Ha0 in H0. contradiction.
        -- intros _. eexists. reflexivity.
Qed.

Lemma top_indices_length row :
  length (top_indices row) = Nat.min 5 (length row).
Proof.
  unfold top_indices.
  rewrite length_take, length_rev, (Permutation_length (argsort_perm row)), length_seq.
  reflexivity.
Qed.

Lemma alternative_ok segments row idx :
  (idx < length row)%nat -> length row = length segments ->
  exists alt, alternative segments row idx = ok alt.
Proof.
  intros Hidx Hlen. unfold alternative.
  destruct (index_lt segments idx) as [seg ->]; [lia|]. simpl.
  destruct (index_lt row idx Hidx) as [c ->]. simpl.
  eexists. reflexivity.
Qed.

Lemma match_scene_ok scenes segments m i scene :
  well_shaped m scenes segments -> segments <> [] ->
  Forall (fun s => Segment.start_time s <= Segment.end_time s) segments ->
  (i < length scenes)%nat ->
  exists a, match_scene scenes segments m i scene = ok a.
Proof.
  intros [Hrows Hcols] Hne Hdur Hi. unfold match_scene.
  destruct (index_lt m i) as [row Erow]; [lia|]. rewrite Erow. simpl.
  assert (Hlen : length row = length segments).
  { exact (index_Forall _ _ _ _ Hcols Erow). }
  assert (Hpos : (0 < length segments)%nat).
  { destruct segments; [contradiction | simpl; lia]. }
  destruct (index_lt (top_indices row) 0) as [best Ebest].
  { rewrite top_indices_length. lia. }
  rewrite Ebest. simpl.
  assert (Hbest : (best < length row)%nat).
  { exact (index_Forall _ _ _ _ (top_indices_in_range row) Ebest). }
  destruct (index_lt segments best) as [seg Eseg]; [lia|]. rewrite Eseg. simpl.
  destruct (index_lt row best Hbest) as [c ->]. simpl.
  destruct (length_similarity_ok scene seg) as [l ->].
  { exact (index_Forall _ _ _ _ Hdur Eseg). }
  simpl.
  destruct (map_result_ok (alternative segments row)
              (take 2 (drop 1 (top_indices row)))) as [alts ->].
  { apply Forall_take, Forall_drop.
    eapply Forall_impl; [apply top_indices_in_range|].
    intros idx Hidx. apply alternative_ok; assumption. }
  simpl. eexists. reflexivity.
Qed.

(** On a similarity matrix with one row per scene and one column per
    segment, at least one segment, and no segment ending before it
    starts, [perform_semantic_matching] returns: none of its index or
    division errors can occur. *)
Theorem matcher_succeeds
    (cosine_similarity : list (list Q) -> list (list Q) -> result (list (list Q)))
    (scenes : list Scene.t) (segments : list Segment.t)
    (scene_embeddings segment_embeddings : list (list Q)) (m : list (list Q)) :
  cosine_similarity scene_embeddings segment_embeddings = ok m ->
  well_shaped m scenes segments ->
  segments <> [] ->
  Forall (fun s => Segment.start_time s <= Segment.end_time s) segments ->
  exists alignments,
    perform_semantic_matching cosine_similarity scenes segments
      scene_embeddings segment_embeddings = ok alignments.
Proof.
  intros Hcos Hshape Hne Hdur. unfold perform_semantic_matching.
  rewrite Hcos. simpl.
  apply mapi_result_ok. intros j scene Hj. simpl.
  apply match_scene_ok; try assumption.
  eapply lookup_lt_Some, Hj.
Qed.

Lemma matcher_succeeds_witness :
  exists alignments,
    perform_semantic_matching dot_similarity Examples.kitchen_scenes
      Examples.three_candidates Examples.scene_vectors Examples.segment_vectors
    = ok alignments.
Proof.
  eapply (matcher_succeeds dot_similarity Examples.kitchen_scenes
            Examples.three_candidates Examples.scene_vectors
            Examples.segment_vectors).
  - lazy. reflexivity.
  - split; [reflexivity|].
    repeat (match goal with |- Forall _ _ => constructor end); reflexivity.
  - discriminate.
  - repeat (match goal with |- Forall _ _ => constructor end);
      apply Qle_bool_iff; reflexivity.
Defined.

End MatcherExtras.

(** ** Properties of the model cache *)

Module ModelCacheFacts.
Import ModelCache.

Section WithLoader.

Context {Model : Type} (load : string -> result Model).

(** A call of [get_sentence_transformer] keeps the cache within its
    capacity, the larger of 1 and [ML_MODEL_CACHE_SIZE]. *)
Theorem cache_within_capacity (s : Settings) (cache : gmap string Model)
    (model_name : string) :
  (size cache <= capacity s)%nat ->
  (size (fst (get_sentence_transformer Model load s cache model_name))
   <= capacity s)%nat.
Proof.
  unfold capacity, get_sentence_transformer. intros Hsize.
  destruct (cache !! model_name) as [m|] eqn:Hhit; [exact Hsize|].
  destruct (ML_MODEL_CACHE_SIZE s <=? size cache)%nat eqn:Efull.
  - destruct (load model_name); simpl.
    + rewrite map_size_empty. lia.
    + rewrite map_size_insert_None by apply lookup_empty.
      rewrite map_size_empty. lia.
  - apply Nat.leb_gt in Efull. destruct (load model_name); simpl.
    + exact Hsize.
    + rewrite map_size_insert_None by exact Hhit. lia.
Qed.

(** A cached model is returned as it is, without loading and without
    touching the cache; and whenever a model is returned, it is the
    one the cache holds for that name afterwards. *)
Theorem cache_returns_cached (s : Settings) (cache : gmap string Model)
    (model_name : string) :
  (forall model, cache !! model_name = Some model ->
     get_sentence_transformer Model load s cache model_name = (cache, ok model)) /\
  (forall cache' model,
     get_sentence_transformer Model load s cache model_name = (cache', ok model) ->
     cache' !! model_name = Some model).
Proof.
  unfold get_sentence_transformer. split.
  - intros model ->. reflexivity.
  - intros cache' model.
    destruct (cache !! model_name) as [m|] eqn:Hhit.
    + intros [= <- <-]. exact Hhit.
    + destruct (load model_name) as [e|m]; [discriminate|].
      intros [= <- <-]. apply lookup_insert_eq.
Qed.

(** A miss below capacity keeps every other cached model; a miss at
    capacity evicts all of them, so that the cache holds the requested
    model alone, and holds nothing if loading it fails. *)
Theorem cache_miss (s : Settings) (cache : gmap string Model)
    (model_name : string) :
  cache !! model_name = None ->
  ((size cache < ML_MODEL_CACHE_SIZE s)%nat ->
   forall other, other <> model_name ->
     fst (get_sentence_transformer Model load s cache model_name) !! other
     = cache !! other) /\
  ((ML_MODEL_CACHE_SIZE s <= size cache)%nat ->
   get_sentence_transformer Model load s cache model_name
   = match load model_name with
     | inl e => (∅, raise e)
     | inr model => ({[model_name := model]}, ok model)
     end).
Proof.
  intros Hmiss. unfold get_sentence_transformer. rewrite Hmiss. split.
  - intros Hroom other Hother.
    apply Nat.leb_gt in Hroom. rewrite Hroom.
    destruct (load model_name); simpl; [reflexivity|].
    apply lookup_insert_ne. congruence.
  - intros Hfull. apply Nat.leb_le in Hfull. rewrite Hfull.
    destruct (load model_name); reflexivity.
Qed.

End WithLoader.

Lemma cache_within_capacity_witness :
  (size (fst (get_sentence_transformer string Examples.loaded settings ∅
                Examples.default_model))
   <= capacity settings)%nat.
Proof.
  apply (cache_within_capacity Examples.loaded settings ∅ Examples.default_model).
  rewrite map_size_empty. unfold capacity. lia.
Defined.

(** Both cases of a miss: below capacity the model cached before is
    still there; at capacity the three cached models are gone and the
    requested one is alone. *)
Lemma cache_miss_witness :
  (fst (get_sentence_transformer string Examples.loaded settings
          Examples.one_cached Examples.default_model)
     !! "paraphrase-MiniLM-L3-v2"%string
   = Some "paraphrase-MiniLM-L3-v2"%string) /\
  size Examples.full_cache = 3%nat /\
  get_sentence_transformer string Examples.loaded settings
    Examples.full_cache Examples.default_model
  = ({[Examples.default_model := Examples.default_model]},
     ok Examples.default_model).
Proof.
  split; [|split].
  - rewrite (proj1 (cache_miss Examples.loaded settings Examples.one_cached
                      Examples.default_model ltac:(vm_compute; reflexivity))).
    + vm_compute. reflexivity.
    + vm_compute. lia.
    + discriminate.
  - vm_compute. reflexivity.
  - rewrite (proj2 (cache_miss Examples.loaded settings Examples.full_cache
                      Examples.default_model ltac:(vm_compute; reflexivity))).
    + reflexivity.
    + vm_compute. lia.
Defined.

End ModelCacheFacts.

(** ** Properties of the texts handed to the embedding model *)

Module EmbeddingFacts.
Import Embedding.

Lemma collapse_words s : forall cur in_run,
  (in_run = true -> cur = EmptyString) ->
  PyStr.split_go cur (collapse in_run s) = PyStr.split_go cur s.
Proof.
  induction s as [|c s IH]; intros cur in_run Hrun; [reflexivity|].
  simpl. destruct (PyStr.is_space c) eqn:Ec.
  - destruct in_run.
    + rewrite (Hrun eq_refl). simpl. apply IH. reflexivity.
    + change (PyStr.split_go cur (String " " (collapse true s)))
        with (if PyStr.is_empty cur
              then PyStr.split_go EmptyString (collapse true s)
              else cur :: PyStr.split_go EmptyString (collapse true s)).
      rewrite (IH EmptyString true (fun _ => eq_refl)). reflexivity.
  - simpl. rewrite Ec. apply IH. discriminate.
Qed.

Lemma collapse_single_spaced s : forall in_run,
  single_spaced (collapse in_run s) /\
  (in_run = true ->
   match collapse in_run s with
   | String d _ => PyStr.is_space d = false
   | EmptyString => True
   end).
Proof.
  induction s as [|c s IH]; intros in_run; [split; [exact I | intros _; exact I]|].
  simpl. destruct (PyStr.is_space c) eqn:Ec.
  - destruct in_run.
    + apply IH.
    + destruct (IH true) as [Hs Hd]. split; [|discriminate].
      simpl. split; [reflexivity|]. split; [|exact Hs].
      destruct (collapse true s); [exact I|]. intros _. apply Hd. reflexivity.
  - destruct (IH false) as [Hs _]. split.
    + simpl. rewrite Ec. split; [discriminate|]. split; [|exact Hs].
      destruct (collapse false s); [exact I | discriminate].
    + intros _. exact Ec.
Qed.

(** Normalising the whitespace of a scene text leaves its words as
    they are, and leaves no whitespace but single spaces. *)
Theorem normalize_whitespace_words (text : string) :
  PyStr.split (normalize_whitespace text) = PyStr.split text /\
  single_spaced (normalize_whitespace text).
Proof.
  split.
  - apply collapse_words. discriminate.
  - apply collapse_single_spaced.
Qed.

End EmbeddingFacts.

(** ** Properties of the task *)

Module PipelineFacts.
Import Pipeline.

Section WithCollaborators.

Variable read_script : string -> result string.
Variable encode : list string -> result (list (list Q)).
Variable cosine_similarity : list (list Q) -> list (list Q) -> result (list (list Q)).

(** A run that returns has reported the six milestones 10, 30, 50, 70,
    90, 100 in this order and no failure; a run that raises has
    reported an initial part of them, never the last, and then exactly
    one failure, which carries the exception raised. *)
Theorem task_reports (s : Settings) (job_id script_path : string)
    (transcript_data : TranscriptData) :
  match align_script_to_video read_script encode cosine_similarity
          s job_id script_path transcript_data with
  | (log, inr _) => percents log = milestones /\ Forall (fun e => ~ is_failure e) log
  | (log, inl e) =>
      exists reported n,
        log = reported ++ [Failure e "alignment"] /\
        Forall (fun e => ~ is_failure e) reported /\
        (n < length milestones)%nat /\
        percents reported = take n milestones
  end.
Proof.
  unfold align_script_to_video, reporting_failure, then_, emit, lift.
  destruct (read_script script_path) as [e|content]; simpl.
  { exists [Progress 10 "parsing_script" None], 1%nat.
    repeat split; [|simpl; lia]. repeat constructor; intros []. }
  destruct (Transcript.process_transcript_segments transcript_data) as [e|segments]; simpl.
  { eexists [_; _], 2%nat.
    repeat split; [|simpl; lia]. repeat constructor; intros []. }
  destruct (Embedding.compute_scene_embeddings encode _) as [e|se]; simpl.
  { eexists [_; _; _], 3%nat.
    repeat split; [|simpl; lia]. repeat constructor; intros []. }
  destruct (Embedding.compute_segment_embeddings encode _) as [e|ge]; simpl.
  { eexists [_; _; _], 3%nat.
    repeat split; [|simpl; lia]. repeat constructor; intros []. }
  destruct (Matcher.perform_semantic_matching _ _ _ _ _) as [e|matched]; simpl.
  { eexists [_; _; _; _], 4%nat.
    repeat split; [|simpl; lia]. repeat constructor; intros []. }
  split; [reflexivity|]. repeat constructor; intros [].
Qed.

Lemma run_success (s : Settings) (job_id script_path : string)
    (transcript_data : TranscriptData) log res :
  align_script_to_video read_script encode cosine_similarity
    s job_id script_path transcript_data = (log, inr res) ->
  exists content segments scene_embeddings segment_embeddings matched,
    read_script script_path = ok content /\
    Transcript.process_transcript_segments transcript_data = ok segments /\
    Matcher.perform_semantic_matching cosine_similarity
      (Script.parse_script_file content) segments
      scene_embeddings segment_embeddings = ok matched /\
    res = summary s (Script.parse_script_file content) segments
            (Refiner.refine_alignment_temporal s matched).
Proof.
  unfold align_script_to_video, reporting_failure, then_, emit, lift.
  destruct (read_script script_path) as [e|content]; simpl; [discriminate|].
  destruct (Transcript.process_transcript_segments transcript_data)
    as [e|segments]; simpl; [discriminate|].
  destruct (Embedding.compute_scene_embeddings encode _) as [e|se]; simpl;
    [discriminate|].
  destruct (Embedding.compute_segment_embeddings encode _) as [e|ge]; simpl;
    [discriminate|].
  destruct (Matcher.perform_semantic_matching _ _ _ _ _) as [e|matched] eqn:Em;
    simpl; [discriminate|].
  intros [= _ <-]. exists content, segments, se, ge, matched.
  repeat split. exact Em.
Qed.

(** When the task returns, it returns one alignment per scene of the
    script, in ascending scene order, each with its review flag set;
    there is at least one scene and at least one transcript candidate,
    and [matched_scenes] counts no more than the scenes. *)
Theorem task_result (s : Settings) (job_id script_path : string)
    (transcript_data : TranscriptData) (log : list event) (res : AlignmentResult) :
  align_script_to_video read_script encode cosine_similarity
    s job_id script_path transcript_data = (log, inr res) ->
  let info := processing_info res in
  length (alignments res) = script_scenes_count info /\
  (1 <= script_scenes_count info)%nat /\
  (1 <= transcript_segments_count info)%nat /\
  (matched_scenes info <= script_scenes_count info)%nat /\
  Sorted Z.le (map scene_number (alignments res)) /\
  Forall (fun a => manual_review_required a <> None) (alignments res).
Proof.
  intros Hrun.
  destruct (run_success _ _ _ _ _ _ Hrun)
    as (content & segments & se & ge & matched & _ & Hseg & Hmatch & ->).
  simpl.
  pose proof (MatcherExtras.perform_length _ _ _ _ _ _ Hmatch) as Hlen.
  assert (Hrefined : length (Refiner.refine_alignment_temporal s matched)
                     = length (Script.parse_script_file content)).
  { rewrite <- Hlen.
    rewrite <- (length_map Refiner.frame (Refiner.refine_alignment_temporal s matched)).
    rewrite RefinerFacts.refine_frame, length_map.
    apply Permutation_length, RefinerFacts.sort_by_scene_perm. }
  pose proof (ScriptExtras.parse_script_file_nonempty content) as Hscenes.
  assert (Hsegs : segments <> []).
  { exact (TranscriptExtras.process_nonempty transcript_data segments Hseg). }
  split; [exact Hrefined|].
  split; [destruct (Script.parse_script_file content); [contradiction | simpl; lia]|].
  split; [destruct segments; [contradiction | simpl; lia]|].
  split; [rewrite <- Hrefined; apply List.filter_length_le|].
  split; [apply RefinerExtras.adjacent_Sorted, RefinerFacts.refine_sorted|].
  unfold Refiner.refine_alignment_temporal. apply Forall_map, Forall_forall.
  intros a _. unfold Refiner.flag_low_confidence.
  destruct (Qltb _ _); discriminate.
Qed.

(** A transcript with neither segments nor words makes the task fail
    with the exception "No transcript segments or words available"
    whatever the script is, once the script has been read: the task
    has then reported 10 and 30 and the failure, and nothing else. *)
Theorem task_without_transcript (s : Settings) (job_id script_path : string)
    (content : string) :
  read_script script_path = ok content ->
  align_script_to_video read_script encode cosine_similarity
    s job_id script_path {| td_segments := []; td_words := [] |}
  = ([Progress 10 "parsing_script" None;
      Progress 30 "processing_transcript"
        (Some (length (Script.parse_script_file content)));
      Failure (Exception "No transcript segments or words available") "alignment"],
     raise (Exception "No transcript segments or words available")).
Proof.
  intros Hread.
  unfold align_script_to_video, reporting_failure, then_, emit, lift.
  rewrite Hread. reflexivity.
Qed.

End WithCollaborators.

Lemma task_result_witness :
  exists log res,
    align_script_to_video Examples.read_kitchen Examples.constant_encode
      Matcher.dot_similarity settings "job" "script.txt" Examples.four_segments
    = (log, inr res) /\
    length (alignments res) = script_scenes_count (processing_info res) /\
    (1 <= script_scenes_count (processing_info res))%nat /\
    (1 <= transcript_segments_count (processing_info res))%nat /\
    (matched_scenes (processing_info res)
     <= script_scenes_count (processing_info res))%nat /\
    Sorted Z.le (map scene_number (alignments res)) /\
    Forall (fun a => manual_review_required a <> None) (alignments res).
Proof.
  destruct (align_script_to_video Examples.read_kitchen Examples.constant_encode
              Matcher.dot_similarity settings "job" "script.txt"
              Examples.four_segments) as [log [e|res]] eqn:E.
  - exfalso. vm_compute in E. discriminate E.
  - exists log, res. split; [reflexivity|].
    exact (task_result Examples.read_kitchen Examples.constant_encode
             Matcher.dot_similarity settings "job" "script.txt"
             Examples.four_segments log res E).
Defined.

Lemma task_without_transcript_witness :
  align_script_to_video Examples.read_kitchen Examples.constant_encode
    Matcher.dot_similarity settings "job" "script.txt"
    {| td_segments := []; td_words := [] |}
  = ([Progress 10 "parsing_script" None;
      Progress 30 "processing_transcript"
        (Some (length (Script.parse_script_file Examples.kitchen_script)));
      Failure (Exception "No transcript segments or words available") "alignment"],
     raise (Exception "No transcript segments or words available")).
Proof.
  apply (task_without_transcript Examples.read_kitchen Examples.constant_encode
           Matcher.dot_similarity settings "job" "script.txt"
           Examples.kitchen_script).
  reflexivity.
Defined.

End PipelineFacts.

(** ** Letter case in marker detection *)

Module LetterCaseFacts.
Import Re LetterCase.

Lemma lower_idempotent c : PyStr.lower (PyStr.lower c) = PyStr.lower c.
Proof. destruct c as [[] [] [] [] [] [] [] []]; reflexivity. Qed.

Lemma is_space_lower c : PyStr.is_space (PyStr.lower c) = PyStr.is_space c.
Proof. destruct c as [[] [] [] [] [] [] [] []]; reflexivity. Qed.

Lemma is_digit_lower c : PyStr.is_digit (PyStr.lower c) = PyStr.is_digit c.
Proof. destruct c as [[] [] [] [] [] [] [] []]; reflexivity. Qed.

Lemma caseless_chr c0 : caseless (chr c0).
Proof. intros c. simpl. rewrite lower_idempotent. reflexivity. Qed.

Lemma caseless_lit s : caseless (lit s).
Proof.
  induction s as [|c s IH]; [exact I|].
  destruct s as [|d s]; [apply caseless_chr|].
  split; [apply caseless_chr | exact IH].
Qed.

Lemma caseless_spaces : caseless spaces.
Proof. exact is_space_lower. Qed.

Lemma caseless_digits : caseless digits.
Proof. exact is_digit_lower. Qed.

Lemma deriv_lower c r :
  caseless r -> deriv (PyStr.lower c) r = deriv c r /\ caseless (deriv c r).
Proof.
  induction r as [| |p|r1 IH1 r2 IH2|r1 IH1 r2 IH2|r1 IH1]; simpl; intros H.
  - split; [reflexivity | exact I].
  - split; [reflexivity | exact I].
  - rewrite H. split; [reflexivity|]. destruct (p c); exact I.
  - destruct H as [H1 H2].
    destruct (IH1 H1) as [-> D1]. destruct (IH2 H2) as [-> D2].
    split; [reflexivity|]. destruct (nullable r1); simpl; tauto.
  - destruct H as [H1 H2].
    destruct (IH1 H1) as [-> D1]. destruct (IH2 H2) as [-> D2].
    split; [reflexivity | split; assumption].
  - destruct (IH1 H) as [-> D1]. split; [reflexivity|]. simpl. tauto.
Qed.

Lemma match_prefix_lower s : forall r,
  caseless r -> match_prefix r (lower_string s) = match_prefix r s.
Proof.
  induction s as [|c s IH]; intros r H; [reflexivity|].
  simpl. destruct (deriv_lower c r H) as [-> D]. rewrite (IH _ D). reflexivity.
Qed.

Lemma search_lower p s :
  caseless (body p) -> search p (lower_string s) = search p s.
Proof.
  intros H. unfold search. destruct (anchored p); [apply match_prefix_lower, H|].
  induction s as [|c s IH]; [reflexivity|].
  change (search_unanchored (body p) (lower_string (String c s)))
    with (match_prefix (body p) (lower_string (String c s))
          || search_unanchored (body p) (lower_string s)).
  rewrite (match_prefix_lower (String c s) _ H), IH. reflexivity.
Qed.

Lemma scene_patterns_caseless :
  Forall (fun p => caseless (body p)) Script.scene_patterns.
Proof.
  unfold Script.scene_patterns.
  repeat (match goal with |- Forall _ _ => constructor end); simpl;
    repeat split;
    first [ apply caseless_lit | apply caseless_chr
          | apply caseless_spaces | apply caseless_digits ].
Qed.

(** Marker detection ignores letter case: a line and its lower-case
    form are both markers or both not. *)
Theorem is_scene_marker_caseless (line : string) :
  Script.is_scene_marker (lower_string line) = Script.is_scene_marker line.
Proof.
  unfold Script.is_scene_marker.
  pose proof scene_patterns_caseless as H.
  induction H as [|p ps Hp _ IH]; [reflexivity|].
  simpl. rewrite (search_lower p line Hp), IH. reflexivity.
Qed.

End LetterCaseFacts.

(** ** Bounds of the two auxiliary similarities *)

Module SimilarityBounds.
Import Matcher.

(** For a scene index and a segment index within their collections,
    [compute_position_similarity] lies in [0, 1]. *)
Theorem position_similarity_in_unit (scene_idx segment_idx : nat)
    (total_scenes total_segments : nat) :
  (scene_idx < total_scenes)%nat -> (segment_idx < total_segments)%nat ->
  in_unit (compute_position_similarity scene_idx segment_idx
             total_scenes total_segments).
Proof. apply MatcherFacts.compute_position_similarity_unit. Qed.

Lemma position_similarity_in_unit_witness :
  in_unit (compute_position_similarity 1 4 2 6).
Proof. apply (position_similarity_in_unit 1 4 2 6); lia. Defined.

(** For a segment that does not end before it starts, a value returned
    by [compute_length_similarity] lies in [0, 1]. *)
Theorem length_similarity_in_unit (scene : Scene.t) (segment : Segment.t)
    (similarity : Q) :
  Segment.start_time segment <= Segment.end_time segment ->
  compute_length_similarity scene segment = ok similarity ->
  in_unit similarity.
Proof. apply MatcherFacts.compute_length_similarity_unit. Qed.

Lemma length_similarity_in_unit_witness :
  exists similarity,
    compute_length_similarity Examples.cooking_scene (Examples.candidate "single_0" 0 2)
    = ok similarity /\
    in_unit similarity.
Proof.
  eexists. split; [lazy; reflexivity|].
  eapply (length_similarity_in_unit Examples.cooking_scene
            (Examples.candidate "single_0" 0 2)).
  - apply Qle_bool_iff. reflexivity.
  - lazy. reflexivity.
Defined.

End SimilarityBounds.

(** ** The validator on refined alignments *)

Module RefinedQuality.
Import Refiner RefinerFacts RefinerOutcome Validator.

(** When no alignment enters the refiner with a conflict flag, as is
    the case for the matcher's output, the validator counts a conflict
    for at most all alignments but one after refinement: the scene of
    lowest number is never in conflict. *)
Theorem refined_conflicts_bound (s : Settings) (job_id : string)
    (xs : list Alignment) :
  xs <> [] ->
  Forall (fun a => temporal_conflict a = None) xs ->
  (temporal_conflicts
     (scene_statistics
        (validate_alignment_quality job_id (refine_alignment_temporal s xs)))
   < length xs)%nat.
Proof.
  intros Hne Hfresh. simpl.
  rewrite <- (Permutation_length (sort_by_scene_perm xs)).
  assert (Hsorted : Forall (fun a => temporal_conflict a = None) (sort_by_scene xs)).
  { rewrite (sort_by_scene_perm xs). exact Hfresh. }
  assert (Hne' : sort_by_scene xs <> []).
  { intros H. apply Hne.
    pose proof (Permutation_length (sort_by_scene_perm xs)) as Hlen.
    rewrite H in Hlen. destruct xs; [reflexivity | discriminate Hlen]. }
  unfold refine_alignment_temporal.
  destruct (sort_by_scene xs) as [|a l]; [contradiction|].
  apply Forall_cons in Hsorted as [Ha _].
  simpl. unfold count. simpl.
  assert (E : has_conflict (flag_low_confidence s a) = false).
  { unfold has_conflict.
    destruct (flag_low_confidence_times s a) as (_ & _ & -> & _).
    rewrite Ha. reflexivity. }
  rewrite E.
  pose proof (List.filter_length_le has_conflict
                (map (flag_low_confidence s) (temporal_pass a l))) as Hle.
  rewrite length_map in Hle.
  assert (Hlen : length (temporal_pass a l) = length l).
  { rewrite <- (length_map frame (temporal_pass a l)), temporal_pass_frame.
    apply length_map. }
  lia.
Qed.

Lemma refined_conflicts_bound_witness :
  (temporal_conflicts
     (scene_statistics
        (validate_alignment_quality "job"
           (refine_alignment_temporal settings Examples.same_span)))
   < length Examples.same_span)%nat.
Proof.
  apply (refined_conflicts_bound settings "job" Examples.same_span).
  - discriminate.
  - repeat (match goal with |- Forall _ _ => constructor end); reflexivity.
Defined.

End RefinedQuality.

(** ** Grouping by position *)

Module GroupingWitness.
Import Transcript.

(** Two different words: the first is not a copy of the last. *)
Lemma create_segments_by_position_witness :
  create_segments_from_words Examples.oh_no default_segment_duration
  = group_words_by_position default_segment_duration Examples.oh_no [] [] 0.
Proof.
  apply (TranscriptClaims.create_segments_by_position Examples.oh_no
           default_segment_duration).
  intros (i & w & Hw & Hi & Hlast).
  destruct i as [|[|i]]; simpl in Hw, Hi.
  - injection Hw as <-. vm_compute in Hlast. discriminate Hlast.
  - lia.
  - lia.
Defined.

End GroupingWitness.
